(** * react-keybind: the shortcut engine of [src/index.tsx]

    A shallow embedding of the [ShortcutProvider] class: the key
    normalizer [transformKeys], the three routing tables, the key-down /
    key-up handlers, the hold interval and the sequence timeout, together
    with the properties the specification states about them.

    Modelling conventions.
    - JavaScript strings are [string]s of ASCII characters; [toLowerCase]
      folds the letters A-Z.
    - The objects used as dictionaries ([listeners], [holdListeners],
      [holdDurations], [sequenceListeners]) are finite maps from property
      name to value ([gmap string _]): own properties only.
    - Handlers are opaque callbacks, identified by a number; calling one is
      recorded in a trace of effects and does not re-enter the engine.
    - Durations and the hold counter are integers ([Z]); the clock is a
      natural number of milliseconds ([N]).
    - [window.setInterval] / [window.setTimeout] are modelled by the timer
      they create: the field that holds the timer id in the source holds
      the timer's due time (and, for the interval, the variables its
      callback closes over).
    - [setState] takes effect before the next engine call. *)

From Stdlib Require Import ZArith NArith Ascii String List Lia.
From stdpp Require Import gmap strings list fin_maps.

#[local] Open Scope string_scope.

(** ** Strings *)

(** [String.prototype.toLowerCase], on ASCII. *)
Definition lower_ascii (c : ascii) : ascii :=
  let n := N_of_ascii c in
  if ((65 <=? n) && (n <=? 90))%N then ascii_of_N (n + 32) else c.

Fixpoint toLowerCase (s : string) : string :=
  match s with
  | EmptyString => EmptyString
  | String c r => String (lower_ascii c) (toLowerCase r)
  end.

(** [s.split(sep)] for a one-character separator: never the empty list. *)
Fixpoint split (sep : ascii) (s : string) : list string :=
  match s with
  | EmptyString => [EmptyString]
  | String c r =>
      if Ascii.eqb c sep then EmptyString :: split sep r
      else match split sep r with
           | [] => [String c EmptyString]
           | h :: t => String c h :: t
           end
  end.

(** [l.join(sep)]. *)
Fixpoint join (sep : string) (l : list string) : string :=
  match l with
  | [] => EmptyString
  | [x] => x
  | x :: r => x ++ sep ++ join sep r
  end.

(** [l.indexOf(x)]: the first position of [x], or [-1]. *)
Fixpoint indexOf_from (i : Z) (l : list string) (x : string) : Z :=
  match l with
  | [] => (-1)%Z
  | y :: r => if String.eqb y x then i else indexOf_from (i + 1) r x
  end.

Definition indexOf (l : list string) (x : string) : Z := indexOf_from 0 l x.

(** [Number.prototype.toString(36)] on a non-negative integer. *)
Definition digit36 (d : N) : ascii :=
  if (d <? 10)%N then ascii_of_N (48 + d) else ascii_of_N (87 + d).

Fixpoint toString36_aux (fuel : nat) (n : N) (acc : string) : string :=
  match fuel with
  | O => acc
  | S f =>
      let acc' := String (digit36 (n mod 36)) acc in
      if (n / 36 =? 0)%N then acc' else toString36_aux f (n / 36) acc'
  end.

Definition toString36 (n : N) : string :=
  toString36_aux (S (N.to_nat (N.log2 n))) n EmptyString.

(** ** Key Normalizer: [ShortcutProvider.transformKeys] *)

(** The [switch] of the inner [map]. *)
Definition transformKey (key : string) : string :=
  let keyEvent := toLowerCase key in
  if String.eqb keyEvent "opt" then "alt"
  else if String.eqb keyEvent "option" then "alt"
  else if String.eqb keyEvent "control" then "ctrl"
  else if String.eqb keyEvent "cmd" then "meta"
  else if String.eqb keyEvent "command" then "meta"
  else keyEvent.

Definition transformCombo (rawKeys : string) : string :=
  let splitKeys := split "+" rawKeys in
  let transformedKeys := map transformKey splitKeys in
  join "+" transformedKeys.

Definition transformKeys (keys : list string) : list string :=
  map transformCombo keys.

(** ** Data model *)

Definition Handler := nat.

Record KeyboardEvent := {
  key : string;
  ctrlKey : bool;
  altKey : bool;
  metaKey : bool;
  tagName : string          (* e.target.tagName *)
}.

Record IShortcut := {
  description : string;
  hold : bool;
  holdDuration : Z;
  id : string;
  keys : list string;
  method : Handler;
  sequence : bool;
  title : string
}.

Record IShortcutProviderProps := {
  ignoreTagNames : option (list string)
}.

(** The repeating timer made by [createTimer] in [keyDown]: when it fires
    next, and what its callback captured. *)
Record Interval := {
  due : N;
  heldKeys : list string;   (* the local [keysDown] of the key-down *)
  keyPress : string;
  event : KeyboardEvent
}.

(** The fields of [ShortcutProvider], and [state.shortcuts]. *)
Record State := {
  holdDurations : gmap string Z;
  holdInterval : option Interval;
  holdListeners : gmap string Handler;
  holdTimer : Z;
  keysDown : list string;
  listeners : gmap string Handler;
  previousKeys : list string;
  sequenceListeners : gmap string Handler;
  sequenceTimer : option N;
  shortcuts : list IShortcut
}.

Definition initialState : State := {|
  holdDurations := ∅;
  holdInterval := None;
  holdListeners := ∅;
  holdTimer := 0;
  keysDown := [];
  listeners := ∅;
  previousKeys := [];
  sequenceListeners := ∅;
  sequenceTimer := None;
  shortcuts := []
|}.

Inductive Table := Instant | Hold | Sequence.

(** What a call of the engine does to the outside world. *)
Inductive Effect :=
| PreventDefault (e : KeyboardEvent)
| Invoke (tbl : Table) (combo : string) (h : Handler) (e : KeyboardEvent)
| TypeError (combo : string).   (* holdListeners[combo] is not a function *)

Definition ignoreForTagNames : list string := ["input"].

(** ** Timers *)

Definition resetTimer (st : State) : State :=
  match holdInterval st with
  | Some _ =>
      {| holdDurations := holdDurations st;
         holdInterval := None;
         holdListeners := holdListeners st;
         holdTimer := 0;
         keysDown := keysDown st;
         listeners := listeners st;
         previousKeys := previousKeys st;
         sequenceListeners := sequenceListeners st;
         sequenceTimer := sequenceTimer st;
         shortcuts := shortcuts st |}
  | None => st
  end.

Definition set_holdInterval (iv : option Interval) (st : State) : State :=
  {| holdDurations := holdDurations st;
     holdInterval := iv;
     holdListeners := holdListeners st;
     holdTimer := holdTimer st;
     keysDown := keysDown st;
     listeners := listeners st;
     previousKeys := previousKeys st;
     sequenceListeners := sequenceListeners st;
     sequenceTimer := sequenceTimer st;
     shortcuts := shortcuts st |}.

Definition set_holdTimer (t : Z) (st : State) : State :=
  {| holdDurations := holdDurations st;
     holdInterval := holdInterval st;
     holdListeners := holdListeners st;
     holdTimer := t;
     keysDown := keysDown st;
     listeners := listeners st;
     previousKeys := previousKeys st;
     sequenceListeners := sequenceListeners st;
     sequenceTimer := sequenceTimer st;
     shortcuts := shortcuts st |}.

Definition set_keysDown (ks : list string) (st : State) : State :=
  {| holdDurations := holdDurations st;
     holdInterval := holdInterval st;
     holdListeners := holdListeners st;
     holdTimer := holdTimer st;
     keysDown := ks;
     listeners := listeners st;
     previousKeys := previousKeys st;
     sequenceListeners := sequenceListeners st;
     sequenceTimer := sequenceTimer st;
     shortcuts := shortcuts st |}.

Definition set_sequence (prev : list string) (timer : option N) (st : State) : State :=
  {| holdDurations := holdDurations st;
     holdInterval := holdInterval st;
     holdListeners := holdListeners st;
     holdTimer := holdTimer st;
     keysDown := keysDown st;
     listeners := listeners st;
     previousKeys := prev;
     sequenceListeners := sequenceListeners st;
     sequenceTimer := timer;
     shortcuts := shortcuts st |}.

(** [createTimer], called at time [now] with the callback of [keyDown]. *)
Definition createTimer (now : N) (pressed : list string) (combo : string)
    (e : KeyboardEvent) (st : State) : State :=
  set_holdInterval
    (Some {| due := now + 100; heldKeys := pressed; keyPress := combo; event := e |}) st.

(** [this.holdTimer >= this.holdDurations[key]]: false when the table has
    no such key (a comparison with [undefined]). *)
Definition reached (t : Z) (d : option Z) : bool :=
  match d with
  | Some d => (d <=? t)%Z
  | None => false
  end.

Inductive Completion := Normal | Thrown.

(** The callback given to [createTimer]: [keysDown.forEach(...)]. Calling
    an absent [holdListeners[keyPress]] throws and abandons the loop. *)
Fixpoint holdCallback (ks : list string) (combo : string) (e : KeyboardEvent)
    (st : State) : State * list Effect * Completion :=
  match ks with
  | [] => (st, [], Normal)
  | k :: rest =>
      if reached (holdTimer st) (holdDurations st !! k) then
        match holdListeners st !! combo with
        | Some h =>
            let '(st', fx, c) := holdCallback rest combo e (resetTimer st) in
            (st', Invoke Hold combo h e :: fx, c)
        | None => (st, [TypeError combo], Thrown)
        end
      else holdCallback rest combo e st
  end.

(** One firing of the interval: the callback, then [holdTimer += 100]
    (skipped when the callback threw). The host has already scheduled the
    next firing when the callback runs. *)
Definition intervalTick (st : State) : State * list Effect :=
  match holdInterval st with
  | None => (st, [])
  | Some iv =>
      let rearmed :=
        {| due := due iv + 100; heldKeys := heldKeys iv;
           keyPress := keyPress iv; event := event iv |} in
      match holdCallback (heldKeys iv) (keyPress iv) (event iv)
              (set_holdInterval (Some rearmed) st) with
      | (st', fx, Normal) => (set_holdTimer (holdTimer st' + 100) st', fx)
      | (st', fx, Thrown) => (st', fx)
      end
  end.

(** The callback of the 2000ms timeout. *)
Definition sequenceTimeout (st : State) : State := set_sequence [] None st.

(** ** Dispatch Core *)

(** The keys of one event: ctrl, alt, meta as flagged, then the key. *)
Definition pressedKeys (e : KeyboardEvent) : list string :=
  ((if ctrlKey e then ["ctrl"] else []) ++
   (if altKey e then ["alt"] else []) ++
   (if metaKey e then ["meta"] else []) ++
   [toLowerCase (key e)])%list.

Definition ignoreList (props : IShortcutProviderProps) : list string :=
  match ignoreTagNames props with
  | Some tags => (map toLowerCase tags ++ ignoreForTagNames)%list
  | None => ignoreForTagNames
  end.

(** The guard of [keyDown]. *)
Definition listening (props : IShortcutProviderProps) (e : KeyboardEvent)
    (st : State) : bool :=
  (indexOf (ignoreList props) (toLowerCase (tagName e)) <? 0)%Z &&
  (indexOf (keysDown st) (toLowerCase (key e)) <? 0)%Z.

Definition keyDown (props : IShortcutProviderProps) (now : N) (e : KeyboardEvent)
    (st : State) : State * list Effect :=
  if listening props e st then
    let pressed := pressedKeys e in
    let combo := join "+" pressed in
    let fx1 :=
      match listeners st !! combo with
      | Some h => [PreventDefault e; Invoke Instant combo h e]
      | None => []
      end in
    let st1 := set_keysDown (keysDown st ++ pressed)%list st in
    let st2 := createTimer now pressed combo e (resetTimer st1) in
    let prev := (previousKeys st2 ++ pressed)%list in
    let sequenceKeys := join "," prev in
    let fx2 :=
      match sequenceListeners st2 !! sequenceKeys with
      | Some h => [Invoke Sequence sequenceKeys h e]
      | None => []
      end in
    (set_sequence prev (Some (now + 2000)%N) st2, (fx1 ++ fx2)%list)
  else (st, []).

Definition keyUp (e : KeyboardEvent) (st : State) : State :=
  let keysUp := pressedKeys e in
  resetTimer
    (set_keysDown
       (List.filter (fun k => (indexOf keysUp k <? 0)%Z) (keysDown st)) st).

(** ** Shortcut Registry *)

(** [Object.keys(o)]: the order of the keys plays no role below. *)
Definition objectKeys {V : Type} (o : gmap string V) : list string :=
  map fst (map_to_list o).

(** The [exists] flag of [registerShortcut]:
    [Object.keys(listeners).forEach(existingKey =>
       exists = exists || transformedKeys.some(key => key === existingKey))]. *)
Definition existsIn (existing : list string) (transformedKeys : list string) : bool :=
  fold_left
    (fun exists_ existingKey =>
       exists_ || existsb (fun key => String.eqb key existingKey) transformedKeys)
    existing false.

(** The body of [transformedKeys.forEach] in [registerShortcut]. *)
Definition addListener (hold_ : bool) (duration : Z) (m : Handler)
    (st : State) (k : string) : State :=
  if hold_ then
    {| holdDurations := <[k := duration]> (holdDurations st);
       holdInterval := holdInterval st;
       holdListeners := <[k := m]> (holdListeners st);
       holdTimer := holdTimer st;
       keysDown := keysDown st;
       listeners := listeners st;
       previousKeys := previousKeys st;
       sequenceListeners := sequenceListeners st;
       sequenceTimer := sequenceTimer st;
       shortcuts := shortcuts st |}
  else
    {| holdDurations := holdDurations st;
       holdInterval := holdInterval st;
       holdListeners := holdListeners st;
       holdTimer := holdTimer st;
       keysDown := keysDown st;
       listeners := <[k := m]> (listeners st);
       previousKeys := previousKeys st;
       sequenceListeners := sequenceListeners st;
       sequenceTimer := sequenceTimer st;
       shortcuts := shortcuts st |}.

Definition set_shortcuts (l : list IShortcut) (st : State) : State :=
  {| holdDurations := holdDurations st;
     holdInterval := holdInterval st;
     holdListeners := holdListeners st;
     holdTimer := holdTimer st;
     keysDown := keysDown st;
     listeners := listeners st;
     previousKeys := previousKeys st;
     sequenceListeners := sequenceListeners st;
     sequenceTimer := sequenceTimer st;
     shortcuts := l |}.

(** The table a chord registration is checked against and written to. *)
Definition targetTable (hold_ : bool) (st : State) : gmap string Handler :=
  if hold_ then holdListeners st else listeners st.

(** [holdDuration !== undefined]. *)
Definition holding (holdDuration_ : option Z) : bool :=
  match holdDuration_ with Some _ => true | None => false end.

(** [holdDuration !== undefined ? holdDuration : 0]. *)
Definition durationOf (holdDuration_ : option Z) : Z :=
  match holdDuration_ with Some d => d | None => 0%Z end.

(** The object literal [shortcut] of [registerShortcut]; [now] is the
    value of [Date.now()]. *)
Definition chordShortcut (now : N) (m : Handler) (ks : list string)
    (title_ description_ : string) (holdDuration_ : option Z) : IShortcut :=
  {| description := description_;
     hold := holding holdDuration_;
     holdDuration := durationOf holdDuration_;
     id := toString36 now;
     keys := transformKeys ks;
     method := m;
     sequence := false;
     title := title_ |}.

(** The object literal [shortcut] of [registerSequenceShortcut]: the
    stored [keys] are the argument as given. *)
Definition sequenceShortcut (now : N) (m : Handler) (ks : list string)
    (title_ description_ : string) : IShortcut :=
  {| description := description_;
     hold := false;
     holdDuration := 0;
     id := toString36 now;
     keys := ks;
     method := m;
     sequence := true;
     title := title_ |}.

(** [registerShortcut]. *)
Definition registerShortcut (now : N) (m : Handler) (ks : list string)
    (title_ description_ : string) (holdDuration_ : option Z) (st : State) : State :=
  let nextShortcuts := shortcuts st in
  let hold_ := holding holdDuration_ in
  let duration := durationOf holdDuration_ in
  let transformedKeys := transformKeys ks in
  let shortcut := chordShortcut now m ks title_ description_ holdDuration_ in
  let exists_ := existsIn (objectKeys (targetTable hold_ st)) transformedKeys in
  if negb exists_ then
    set_shortcuts (nextShortcuts ++ [shortcut])%list
      (fold_left (addListener hold_ duration m) transformedKeys st)
  else st.

(** [registerSequenceShortcut]: the routing key is the comma-joined list,
    lower-cased. *)
Definition registerSequenceShortcut (now : N) (m : Handler) (ks : list string)
    (title_ description_ : string) (st : State) : State :=
  let nextShortcuts := shortcuts st in
  let shortcut := sequenceShortcut now m ks title_ description_ in
  let keyEvent := toLowerCase (join "," ks) in
  let exists_ :=
    fold_left (fun exists_ existingKey => exists_ || String.eqb keyEvent existingKey)
      (objectKeys (sequenceListeners st)) false in
  if negb exists_ then
    {| holdDurations := holdDurations st;
       holdInterval := holdInterval st;
       holdListeners := holdListeners st;
       holdTimer := holdTimer st;
       keysDown := keysDown st;
       listeners := listeners st;
       previousKeys := previousKeys st;
       sequenceListeners := <[keyEvent := m]> (sequenceListeners st);
       sequenceTimer := sequenceTimer st;
       shortcuts := (nextShortcuts ++ [shortcut])%list |}
  else st.

(** The body of [transformedKeys.forEach] in [unregisterShortcut]. *)
Definition removeListener (st : State) (k : string) : State :=
  {| holdDurations := delete k (holdDurations st);
     holdInterval := holdInterval st;
     holdListeners := delete k (holdListeners st);
     holdTimer := holdTimer st;
     keysDown := keysDown st;
     listeners := delete k (listeners st);
     previousKeys := previousKeys st;
     sequenceListeners := sequenceListeners st;
     sequenceTimer := sequenceTimer st;
     shortcuts := shortcuts st |}.

(** The [match] flag of the filter in [unregisterShortcut]. *)
Definition matches (transformedKeys : list string) (s : IShortcut) : bool :=
  fold_left
    (fun match_ shortcutKey => match_ && (0 <=? indexOf transformedKeys shortcutKey)%Z)
    (keys s) true.

Definition unregisterShortcut (ks : list string) (sequence_ : bool) (st : State) : State :=
  let transformedKeys := transformKeys ks in
  let st1 :=
    if negb sequence_ then fold_left removeListener transformedKeys st
    else
      let keyEvent := join "," transformedKeys in
      {| holdDurations := holdDurations st;
         holdInterval := holdInterval st;
         holdListeners := holdListeners st;
         holdTimer := holdTimer st;
         keysDown := keysDown st;
         listeners := listeners st;
         previousKeys := previousKeys st;
         sequenceListeners := delete keyEvent (sequenceListeners st);
         sequenceTimer := sequenceTimer st;
         shortcuts := shortcuts st |} in
  set_shortcuts
    (List.filter (fun s => negb (matches transformedKeys s)) (shortcuts st)) st1.

(** ** The host: a clock, the engine, and the trace of its effects *)

Record Host := {
  clock : N;
  engine : State;
  trace : list Effect
}.

Definition boot : Host := {| clock := 0; engine := initialState; trace := [] |}.

(** The timers that are due at [now] fire: the hold interval, then the
    sequence timeout (the two touch disjoint fields). *)
Definition fireDue (now : N) (st : State) : State * list Effect :=
  let '(st1, fx) :=
    match holdInterval st with
    | Some iv => if (due iv <=? now)%N then intervalTick st else (st, [])
    | None => (st, [])
    end in
  let st2 :=
    match sequenceTimer st1 with
    | Some d => if (d <=? now)%N then sequenceTimeout st1 else st1
    | None => st1
    end in
  (st2, fx).

(** One millisecond passes. *)
Definition elapse1 (h : Host) : Host :=
  let now := (clock h + 1)%N in
  let '(st, fx) := fireDue now (engine h) in
  {| clock := now; engine := st; trace := (trace h ++ fx)%list |}.

Inductive Action :=
| KeyDown (e : KeyboardEvent)
| KeyUp (e : KeyboardEvent)
| Elapse (ms : nat)
| RegisterShortcut (m : Handler) (ks : list string) (title_ description_ : string)
    (holdDuration_ : option Z)
| RegisterSequenceShortcut (m : Handler) (ks : list string) (title_ description_ : string)
| UnregisterShortcut (ks : list string) (sequence_ : bool).

Definition on_engine (f : State -> State) (h : Host) : Host :=
  {| clock := clock h; engine := f (engine h); trace := trace h |}.

Definition step (props : IShortcutProviderProps) (h : Host) (a : Action) : Host :=
  match a with
  | KeyDown e =>
      let '(st, fx) := keyDown props (clock h) e (engine h) in
      {| clock := clock h; engine := st; trace := (trace h ++ fx)%list |}
  | KeyUp e => on_engine (keyUp e) h
  | Elapse ms => Nat.iter ms elapse1 h
  | RegisterShortcut m ks t d hd =>
      on_engine (registerShortcut (clock h) m ks t d hd) h
  | RegisterSequenceShortcut m ks t d =>
      on_engine (registerSequenceShortcut (clock h) m ks t d) h
  | UnregisterShortcut ks s => on_engine (unregisterShortcut ks s) h
  end.

Definition run (props : IShortcutProviderProps) (h : Host) (acts : list Action) : Host :=
  fold_left (step props) acts h.

Definition reachable (props : IShortcutProviderProps) (h : Host) : Prop :=
  exists acts, run props boot acts = h.

(** ** Reading a trace *)

Definition invocations (tbl : Table) (fx : list Effect) : list (string * Handler) :=
  flat_map
    (fun x =>
       match x with
       | Invoke Instant c h _ => match tbl with Instant => [(c, h)] | _ => [] end
       | Invoke Hold c h _ => match tbl with Hold => [(c, h)] | _ => [] end
       | Invoke Sequence c h _ => match tbl with Sequence => [(c, h)] | _ => [] end
       | _ => []
       end) fx.

Definition preventions (fx : list Effect) : nat :=
  length (List.filter (fun x => match x with PreventDefault _ => true | _ => false end) fx).

Definition typeErrors (fx : list Effect) : list string :=
  flat_map (fun x => match x with TypeError c => [c] | _ => [] end) fx.

(** How often the handler [h] is called, through whichever table. *)
Definition calls (h : Handler) (fx : list Effect) : nat :=
  length (List.filter
            (fun x => match x with Invoke _ _ h' _ => Nat.eqb h' h | _ => false end) fx).

(** ** Vocabulary of the statements *)

(** [hasChar c s]: the character [c] occurs in [s]. *)
Fixpoint hasChar (c : ascii) (s : string) : bool :=
  match s with
  | EmptyString => false
  | String d r => Ascii.eqb d c || hasChar c r
  end.

(** No letter A-Z occurs in [s]. *)
Definition lowerCased (s : string) : Prop := toLowerCase s = s.

(** The alias table of the normalizer, as the specification words it. *)
Definition aliasTable : list (string * string) :=
  [("opt", "alt"); ("option", "alt"); ("control", "ctrl");
   ("cmd", "meta"); ("command", "meta")].

(** A combination string is canonical when the normalizer leaves it alone. *)
Definition canonical (combo : string) : Prop := transformCombo combo = combo.

(** How often [k] occurs among the keys of a table. *)
Definition entriesFor {V : Type} (k : string) (o : gmap string V) : nat :=
  length (List.filter (String.eqb k) (objectKeys o)).

(** Every key of the shortcut is in the list [tks]. *)
Definition contained (tks : list string) (s : IShortcut) : Prop :=
  forall k, In k (keys s) -> In k tks.

(** No routing table has an entry that [unregisterShortcut] would delete
    for the canonicalized request [tks]. *)
Definition absent (tks : list string) (sequence_ : bool) (st : State) : Prop :=
  if sequence_ then sequenceListeners st !! join "," tks = None
  else forall k, In k tks ->
         listeners st !! k = None /\ holdListeners st !! k = None /\
         holdDurations st !! k = None.

(** The stored keys of every shortcut of the snapshot are canonical. *)
Definition keysCanonical (st : State) : Prop :=
  Forall (fun s => Forall canonical (keys s)) (shortcuts st).

(** The provider without an [ignoreTagNames] prop. *)
Definition defaultProps : IShortcutProviderProps := {| ignoreTagNames := None |}.

(** An event with none of the ctrl, alt, meta flags. *)
Definition bare (e : KeyboardEvent) : Prop :=
  ctrlKey e = false /\ altKey e = false /\ metaKey e = false.

(** Actions that press nothing and register nothing: releases and waits. *)
Definition idle (a : Action) : Prop :=
  match a with
  | KeyUp _ | Elapse _ => True
  | _ => False
  end.

(** The milliseconds that pass during a list of actions. *)
Fixpoint duration (acts : list Action) : nat :=
  match acts with
  | [] => 0
  | Elapse ms :: r => ms + duration r
  | _ :: r => duration r
  end.

(** The sequence tracker [el] milliseconds after a key-down at time [t0]
    that left the buffer [buf]: armed until 2000ms have passed, then
    cleared. *)
Definition tracking (t0 : N) (buf : list string) (tbl : gmap string Handler)
    (h : Host) (el : nat) : Prop :=
  clock h = (t0 + N.of_nat el)%N /\
  sequenceListeners (engine h) = tbl /\
  if (el <? 2000)%nat
  then previousKeys (engine h) = buf /\ sequenceTimer (engine h) = Some (t0 + 2000)%N
  else previousKeys (engine h) = [] /\ sequenceTimer (engine h) = None.

(** The safety property of the hold tick: whenever the counter has reached
    the duration stored for one of the keys captured by the interval, the
    hold table has a handler for the captured combination. *)
Definition tickSafe (st : State) : Prop :=
  forall iv, holdInterval st = Some iv ->
  forall k, In k (heldKeys iv) ->
    reached (holdTimer st) (holdDurations st !! k) = true ->
    is_Some (holdListeners st !! keyPress iv).

(** The hold interval is live, and no key it captured has an entry in
    [holdDurations]. *)
Definition unmeasured (st : State) : Prop :=
  exists iv, holdInterval st = Some iv /\
    forall k, In k (heldKeys iv) -> holdDurations st !! k = None.

(** Every action but the registration of a sequence. *)
Definition chordOnly (a : Action) : Prop :=
  match a with
  | RegisterSequenceShortcut _ _ _ _ => False
  | _ => True
  end.

(** One value stored under each key of a list, and the keys of a list
    deleted: what the [forEach] loops of [registerShortcut] and
    [unregisterShortcut] do to one table. *)
Definition insertAll {V : Type} (ks : list string) (v : V) (o : gmap string V)
    : gmap string V :=
  fold_left (fun o k => <[k := v]> o) ks o.

Definition deleteAll {V : Type} (ks : list string) (o : gmap string V)
    : gmap string V :=
  fold_left (fun o k => delete k o) ks o.

(** The registry of a state: the four tables and the snapshot. *)
Definition sameRegistry (st st' : State) : Prop :=
  listeners st' = listeners st /\ holdListeners st' = holdListeners st /\
  holdDurations st' = holdDurations st /\
  sequenceListeners st' = sequenceListeners st /\ shortcuts st' = shortcuts st.

(** Key events and waits. *)
Definition dispatchOnly (a : Action) : Prop :=
  match a with
  | KeyDown _ | KeyUp _ | Elapse _ => True
  | _ => False
  end.

(** Every action but a key-down. *)
Definition noKeyDown (a : Action) : Prop :=
  match a with
  | KeyDown _ => False
  | _ => True
  end.

(** The hold timer [j] ticks and [r] milliseconds after the key-down, at
    time [t0], of the bare key [k], when no tick has met the duration yet:
    the interval is live and due at the next multiple of 100ms, the counter
    has grown by 100 per tick from [c0], and nothing was added to [tr]. *)
Definition counting (t0 : N) (c0 : Z) (k : string) (e : KeyboardEvent)
    (d : Z) (m : Handler) (tr : list Effect) (j r : nat) (h : Host) : Prop :=
  clock h = (t0 + N.of_nat (100 * j + r))%N /\
  holdInterval (engine h) =
    Some {| due := t0 + N.of_nat (100 * (j + 1)); heldKeys := [k];
            keyPress := k; event := e |} /\
  holdTimer (engine h) = (c0 + 100 * Z.of_nat j)%Z /\
  holdDurations (engine h) !! k = Some d /\
  holdListeners (engine h) !! k = Some m /\
  trace h = tr.

(** With no interval live, the hold counter reads 0 or 100. *)
Definition timerIdle (st : State) : Prop :=
  holdInterval st = None -> holdTimer st = 0%Z \/ holdTimer st = 100%Z.

(** With no interval live, the hold counter reads 0. *)
Definition timerZeroed (st : State) : Prop :=
  holdInterval st = None -> holdTimer st = 0%Z.

(** The hold table and the duration table have the same keys. *)
Definition durationsPaired (st : State) : Prop :=
  forall k, is_Some (holdDurations st !! k) <-> is_Some (holdListeners st !! k).

(** The stored keys of every chord shortcut of the snapshot are canonical. *)
Definition chordKeysCanonical (st : State) : Prop :=
  Forall (fun s => sequence s = false -> Forall canonical (keys s)) (shortcuts st).

(** Typing a key: key-down, key-up, then a pause of [gap] milliseconds. *)
Definition typed (gap : nat) (e : KeyboardEvent) : list Action :=
  [KeyDown e; KeyUp e; Elapse gap].

(** A registration request of either kind. *)
Inductive Registration :=
| Chord (m : Handler) (ks : list string) (title_ description_ : string)
    (holdDuration_ : option Z)
| Ordered (m : Handler) (ks : list string) (title_ description_ : string).

Definition register (now : N) (r : Registration) (st : State) : State :=
  match r with
  | Chord m ks t d hd => registerShortcut now m ks t d hd st
  | Ordered m ks t d => registerSequenceShortcut now m ks t d st
  end.

(** The value of a base-36 numeral, most significant digit first. *)
Definition undigit36 (c : ascii) : N :=
  let n := N_of_ascii c in if (n <? 58)%N then (n - 48)%N else (n - 87)%N.

Fixpoint value36 (v : N) (s : string) : N :=
  match s with
  | EmptyString => v
  | String c r => value36 (36 * v + undigit36 c) r
  end.

(* ================================================================== *)
(** * Properties *)
(* ================================================================== *)

(** ** Strings *)

Lemma lower_ascii_idem c : lower_ascii (lower_ascii c) = lower_ascii c.
Proof. destruct c as [[] [] [] [] [] [] [] []]; reflexivity. Qed.

Lemma lower_ascii_eqb_plus c : Ascii.eqb (lower_ascii c) "+" = Ascii.eqb c "+".
Proof. destruct c as [[] [] [] [] [] [] [] []]; reflexivity. Qed.

Lemma toLowerCase_idem s : toLowerCase (toLowerCase s) = toLowerCase s.
Proof. induction s as [|c r IH]; simpl; [reflexivity|]. now rewrite lower_ascii_idem, IH. Qed.

Lemma toLowerCase_app s t : toLowerCase (s ++ t) = toLowerCase s ++ toLowerCase t.
Proof. induction s as [|c r IH]; simpl; [reflexivity|]. now rewrite IH. Qed.

Lemma toLowerCase_length s : String.length (toLowerCase s) = String.length s.
Proof. induction s as [|c r IH]; simpl; [reflexivity|]. now rewrite IH. Qed.

Lemma hasChar_plus_toLowerCase s : hasChar "+" (toLowerCase s) = hasChar "+" s.
Proof.
  induction s as [|c r IH]; simpl; [reflexivity|].
  now rewrite lower_ascii_eqb_plus, IH.
Qed.

Lemma split_nonempty sep s : split sep s <> [].
Proof.
  destruct s as [|c r]; simpl; [discriminate|].
  destruct (Ascii.eqb c sep); [discriminate|].
  destruct (split sep r); discriminate.
Qed.

Lemma split_segments sep s : Forall (fun t => hasChar sep t = false) (split sep s).
Proof.
  induction s as [|c r IH]; simpl.
  - repeat constructor.
  - destruct (Ascii.eqb c sep) eqn:E.
    + constructor; [reflexivity | exact IH].
    + destruct (split sep r) as [|h t].
      * repeat constructor. simpl. now rewrite E.
      * inversion IH; subst. constructor; [simpl; now rewrite E | assumption].
Qed.

Lemma join_split sep s : join (String sep EmptyString) (split sep s) = s.
Proof.
  induction s as [|c r IH]; simpl; [reflexivity|].
  destruct (Ascii.eqb c sep) eqn:E.
  - apply Ascii.eqb_eq in E. subst c.
    pose proof (split_nonempty sep r) as Hne.
    destruct (split sep r) as [|h t]; [contradiction|].
    simpl in *. now rewrite IH.
  - destruct (split sep r) as [|h t] eqn:Es.
    + now destruct (split_nonempty sep r).
    + destruct t as [|h' t']; simpl in *; now rewrite <- IH.
Qed.

Lemma split_atom sep x : hasChar sep x = false -> split sep x = [x].
Proof.
  induction x as [|c r IH]; simpl; [reflexivity|].
  intros H. apply orb_false_iff in H as [Hc Hr].
  rewrite Hc, (IH Hr). reflexivity.
Qed.

Lemma split_app_sep sep x rest :
  hasChar sep x = false ->
  split sep (x ++ String sep rest) = x :: split sep rest.
Proof.
  induction x as [|c r IH]; simpl.
  - intros _. now rewrite Ascii.eqb_refl.
  - intros H. apply orb_false_iff in H as [Hc Hr].
    rewrite Hc, (IH Hr). reflexivity.
Qed.

Lemma split_join sep l :
  l <> [] -> Forall (fun t => hasChar sep t = false) l ->
  split sep (join (String sep EmptyString) l) = l.
Proof.
  induction l as [|x r IH]; [congruence|].
  intros _ HF. inversion HF as [|? ? Hx Hr]; subst.
  destruct r as [|y r'].
  - simpl. now apply split_atom.
  - change (join (String sep EmptyString) (x :: y :: r'))
      with (x ++ String sep (join (String sep EmptyString) (y :: r'))).
    rewrite split_app_sep by assumption.
    f_equal. apply IH; [discriminate | assumption].
Qed.

(** ** Key Normalizer *)

Lemma transformKey_cases t :
  (In (toLowerCase t, transformKey t) aliasTable) \/
  (~ In (toLowerCase t) (map fst aliasTable) /\ transformKey t = toLowerCase t).
Proof.
  unfold transformKey.
  destruct (String.eqb_spec (toLowerCase t) "opt") as [->|H1]; [left; simpl; tauto|].
  destruct (String.eqb_spec (toLowerCase t) "option") as [->|H2]; [left; simpl; tauto|].
  destruct (String.eqb_spec (toLowerCase t) "control") as [->|H3]; [left; simpl; tauto|].
  destruct (String.eqb_spec (toLowerCase t) "cmd") as [->|H4]; [left; simpl; tauto|].
  destruct (String.eqb_spec (toLowerCase t) "command") as [->|H5]; [left; simpl; tauto|].
  right. split; [|reflexivity]. simpl. intuition congruence.
Qed.

Lemma transformKey_alias t a c :
  In (a, c) aliasTable -> toLowerCase t = a -> transformKey t = c.
Proof.
  unfold transformKey. intros Hin ->. simpl in Hin.
  repeat (destruct Hin as [Hin|Hin]; [injection Hin as <- <-; reflexivity|]).
  contradiction.
Qed.

Lemma transformKey_lowerCased t : lowerCased (transformKey t).
Proof.
  unfold lowerCased.
  destruct (transformKey_cases t) as [Hin|[_ ->]].
  - simpl in Hin.
    repeat (destruct Hin as [Hin|Hin]; [injection Hin as _ <-; reflexivity|]).
    contradiction.
  - apply toLowerCase_idem.
Qed.

Lemma transformKey_idem t : transformKey (transformKey t) = transformKey t.
Proof.
  destruct (transformKey_cases t) as [Hin|[Hn E]].
  - simpl in Hin.
    repeat (destruct Hin as [Hin|Hin]; [injection Hin as _ <-; reflexivity|]).
    contradiction.
  - rewrite E. destruct (transformKey_cases (toLowerCase t)) as [Hin|[_ E']].
    + rewrite toLowerCase_idem in Hin. exfalso. apply Hn.
      apply (in_map fst) in Hin. exact Hin.
    + rewrite E'. apply toLowerCase_idem.
Qed.

Lemma transformKey_no_plus t : hasChar "+" t = false -> hasChar "+" (transformKey t) = false.
Proof.
  intros H. destruct (transformKey_cases t) as [Hin|[_ ->]].
  - simpl in Hin.
    repeat (destruct Hin as [Hin|Hin]; [injection Hin as _ <-; reflexivity|]).
    contradiction.
  - now rewrite hasChar_plus_toLowerCase.
Qed.

Lemma transformed_segments raw :
  Forall (fun t => hasChar "+" t = false) (map transformKey (split "+" raw)).
Proof.
  pose proof (split_segments "+" raw) as H.
  induction H as [|t l Ht _ IH]; simpl; constructor;
    [now apply transformKey_no_plus | exact IH].
Qed.

(** The segments of a normalized combination are the normalized segments
    of the raw one, in order. *)
Lemma split_transformCombo raw :
  split "+" (transformCombo raw) = map transformKey (split "+" raw).
Proof.
  unfold transformCombo. apply split_join.
  - pose proof (split_nonempty "+" raw). destruct (split "+" raw); [contradiction|discriminate].
  - apply transformed_segments.
Qed.

Lemma transformCombo_canonical raw : canonical (transformCombo raw).
Proof.
  unfold canonical. unfold transformCombo at 1.
  rewrite split_transformCombo, map_map.
  unfold transformCombo. f_equal. apply map_ext. intros t. apply transformKey_idem.
Qed.

Lemma transformKeys_idem ks : transformKeys (transformKeys ks) = transformKeys ks.
Proof.
  unfold transformKeys. rewrite map_map. apply map_ext.
  intros raw. apply transformCombo_canonical.
Qed.

(** C6. The normalizer returns a list of the same length; entry by entry,
    the [+]-segments of the result are the segments of the raw string, each
    lower-cased, with opt/option rewritten to alt, control to ctrl,
    cmd/command to meta, and any other token only lower-cased; and
    [transformKeys ["Cmd+K"] = ["meta+k"]]. *)
Theorem C6_transformKeys_normalizes (ks : list string) :
  length (transformKeys ks) = length ks /\
  (forall i raw, ks !! i = Some raw ->
     exists out, transformKeys ks !! i = Some out /\
       length (split "+" out) = length (split "+" raw) /\
       forall j t, split "+" raw !! j = Some t ->
         exists t', split "+" out !! j = Some t' /\
           lowerCased t' /\
           (forall a c, In (a, c) aliasTable -> toLowerCase t = a -> t' = c) /\
           (~ In (toLowerCase t) (map fst aliasTable) -> t' = toLowerCase t)) /\
  transformKeys ["Cmd+K"] = ["meta+k"].
Proof.
  split; [apply length_map|]. split; [|reflexivity].
  intros i raw Hi. exists (transformCombo raw). split.
  - unfold transformKeys. rewrite list_lookup_fmap, Hi. reflexivity.
  - rewrite split_transformCombo. split; [apply length_map|].
    intros j t Hj. exists (transformKey t). split.
    + rewrite list_lookup_fmap, Hj. reflexivity.
    + split; [apply transformKey_lowerCased|]. split.
      * intros a c. apply transformKey_alias.
      * intros Hn. destruct (transformKey_cases t) as [Hin|[_ E]]; [|exact E].
        exfalso. apply Hn. apply (in_map fst) in Hin. exact Hin.
Qed.

Lemma C6_transformKeys_normalizes_witness :
  transformKeys ["Option+X"] !! 0%nat = Some "alt+x".
Proof.
  destruct (C6_transformKeys_normalizes ["Option+X"]) as (_ & Hseg & _).
  destruct (Hseg 0%nat "Option+X" eq_refl) as (out & Hout & Hlen & Htok).
  rewrite Hout. f_equal.
  destruct (Htok 0%nat "Option" eq_refl) as (t0 & H0 & _ & Halias & _).
  destruct (Htok 1%nat "X" eq_refl) as (t1 & H1 & _ & _ & Hother).
  rewrite (Halias "option" "alt") in H0 by (simpl; tauto).
  rewrite Hother in H1 by (simpl; intuition discriminate).
  rewrite <- (join_split "+" out).
  destruct (split "+" out) as [|a [|b [|c r]]]; try discriminate Hlen.
  injection H0 as ->. injection H1 as ->. reflexivity.
Defined.

(** ** Base-36 identifiers *)

Lemma undigit36_digit36 d : (d < 36)%N -> undigit36 (digit36 d) = d.
Proof.
  intros Hd. unfold undigit36, digit36.
  destruct (N.ltb_spec d 10).
  - rewrite N_ascii_embedding by lia.
    destruct (N.ltb_spec (48 + d) 58); lia.
  - rewrite N_ascii_embedding by lia.
    destruct (N.ltb_spec (87 + d) 58); lia.
Qed.

Lemma value36_toString36_aux fuel : forall n acc,
  (n < 36 ^ N.of_nat fuel)%N ->
  value36 0 (toString36_aux fuel n acc) = value36 n acc.
Proof.
  induction fuel as [|f IH]; intros n acc Hn.
  - simpl in Hn. assert (n = 0%N) by lia. subst. reflexivity.
  - cbn [toString36_aux].
    assert (Hm : (n mod 36 < 36)%N) by (apply N.mod_lt; lia).
    pose proof (N.div_mod n 36 ltac:(lia)) as Hdm.
    destruct (N.eqb_spec (n / 36) 0) as [Hz|Hz].
    + cbn [value36]. rewrite undigit36_digit36 by exact Hm.
      f_equal. lia.
    + rewrite IH.
      * cbn [value36]. rewrite undigit36_digit36 by exact Hm. f_equal. lia.
      * apply N.Div0.div_lt_upper_bound.
        rewrite Nat2N.inj_succ, N.pow_succ_r' in Hn. exact Hn.
Qed.

Lemma toString36_fuel n : (n < 36 ^ N.of_nat (S (N.to_nat (N.log2 n))))%N.
Proof.
  rewrite Nat2N.inj_succ, N2Nat.id.
  destruct (N.eq_dec n 0%N) as [->|Hn]; [reflexivity|].
  eapply N.lt_le_trans.
  - apply N.log2_spec. lia.
  - apply N.pow_le_mono_l. lia.
Qed.

Lemma value36_toString36 n : value36 0 (toString36 n) = n.
Proof. unfold toString36. rewrite value36_toString36_aux; [reflexivity | apply toString36_fuel]. Qed.

Lemma toString36_inj n m : toString36 n = toString36 m -> n = m.
Proof. intros H. rewrite <- (value36_toString36 n), H. apply value36_toString36. Qed.

(** ** Lists and tables *)

Lemma indexOf_from_spec l x : forall i, (0 <= i)%Z ->
  (In x l -> (i <= indexOf_from i l x)%Z) /\
  (~ In x l -> indexOf_from i l x = (-1)%Z).
Proof.
  induction l as [|y r IH]; intros i Hi; simpl.
  - split; [contradiction | reflexivity].
  - destruct (String.eqb_spec y x) as [->|Hne].
    + split; [lia | tauto].
    + destruct (IH (i + 1)%Z ltac:(lia)) as [IH1 IH2]. split.
      * intros [Heq|Hin]; [congruence|]. specialize (IH1 Hin). lia.
      * intros Hn. apply IH2. tauto.
Qed.

Lemma indexOf_found l x : (0 <=? indexOf l x)%Z = true <-> In x l.
Proof.
  unfold indexOf. destruct (indexOf_from_spec l x 0%Z ltac:(lia)) as [H1 H2].
  rewrite Z.leb_le. split.
  - intros H. destruct (in_dec string_dec x l) as [Hin|Hn]; [exact Hin|].
    rewrite (H2 Hn) in H. lia.
  - exact H1.
Qed.

Lemma indexOf_missing l x : (indexOf l x <? 0)%Z = true <-> ~ In x l.
Proof.
  rewrite <- indexOf_found, Z.ltb_lt, Z.leb_le. split; intros H; lia.
Qed.

Lemma fold_left_orb {A} (f : A -> bool) l : forall b,
  fold_left (fun acc x => acc || f x) l b = b || existsb f l.
Proof.
  induction l as [|x r IH]; intros b; simpl.
  - now rewrite orb_false_r.
  - rewrite IH. now rewrite orb_assoc.
Qed.

Lemma fold_left_andb {A} (f : A -> bool) l : forall b,
  fold_left (fun acc x => acc && f x) l b = b && forallb f l.
Proof.
  induction l as [|x r IH]; intros b; simpl.
  - now rewrite andb_true_r.
  - rewrite IH. now rewrite andb_assoc.
Qed.

Lemma In_objectKeys {V} (o : gmap string V) k : In k (objectKeys o) <-> is_Some (o !! k).
Proof.
  unfold objectKeys. rewrite in_map_iff. split.
  - intros [[k' v] [Hk Hin]]. simpl in Hk. subst k'.
    apply list_elem_of_In, elem_of_map_to_list in Hin. now exists v.
  - intros [v Hv]. exists (k, v). split; [reflexivity|].
    apply list_elem_of_In, elem_of_map_to_list. exact Hv.
Qed.

Lemma NoDup_objectKeys {V} (o : gmap string V) : NoDup (objectKeys o).
Proof. apply (NoDup_fst_map_to_list o). Qed.

Lemma entries_NoDup k (l : list string) :
  NoDup l -> In k l -> length (List.filter (String.eqb k) l) = 1%nat.
Proof.
  induction 1 as [|x r Hx Hnd IH]; [contradiction|].
  simpl. destruct (String.eqb_spec k x) as [->|Hne].
  - intros _. simpl. f_equal.
    assert (Hnone : forall l', ~ In x l' -> List.filter (String.eqb x) l' = []).
    { induction l' as [|y l' IHl]; [reflexivity|]. simpl. intros Hn.
      destruct (String.eqb_spec x y) as [->|_]; [tauto|]. apply IHl. tauto. }
    rewrite Hnone; [reflexivity|]. intros Hin. apply Hx. now apply list_elem_of_In.
  - intros [Heq|Hin]; [congruence|]. now apply IH.
Qed.

(** A table has exactly one entry per key it holds. *)
Lemma entriesFor_present {V} (o : gmap string V) k :
  is_Some (o !! k) -> entriesFor k o = 1%nat.
Proof.
  intros H. apply entries_NoDup; [apply NoDup_objectKeys | now apply In_objectKeys].
Qed.

Lemma existsIn_true existing tks :
  existsIn existing tks = true <-> exists k, In k existing /\ In k tks.
Proof.
  unfold existsIn. rewrite fold_left_orb. simpl. rewrite existsb_exists. split.
  - intros [ek [Hek H]]. apply existsb_exists in H as [k [Hk E]].
    apply String.eqb_eq in E. subst. eauto.
  - intros [k [Hek Hk]]. exists k. split; [exact Hek|].
    apply existsb_exists. exists k. split; [exact Hk | apply String.eqb_refl].
Qed.

(** The pre-check of [registerShortcut] finds a conflict exactly when a
    canonicalized combination is already a key of the table. *)
Lemma conflict_iff {V} (tbl : gmap string V) tks :
  existsIn (objectKeys tbl) tks = true <-> exists k, In k tks /\ is_Some (tbl !! k).
Proof.
  rewrite existsIn_true. split; intros [k [H1 H2]]; exists k.
  - split; [exact H2 | now apply In_objectKeys].
  - split; [now apply In_objectKeys | exact H1].
Qed.

Lemma no_conflict_iff {V} (tbl : gmap string V) tks :
  existsIn (objectKeys tbl) tks = false <-> forall k, In k tks -> tbl !! k = None.
Proof.
  rewrite <- not_true_iff_false, conflict_iff. split.
  - intros H k Hk. destruct (tbl !! k) eqn:E; [|reflexivity].
    exfalso. apply H. exists k. split; [exact Hk | rewrite E; eauto].
  - intros H [k [Hk [v Hv]]]. rewrite (H k Hk) in Hv. discriminate.
Qed.

Lemma sequence_conflict_iff (tbl : gmap string Handler) keyEvent :
  fold_left (fun exists_ existingKey => exists_ || String.eqb keyEvent existingKey)
    (objectKeys tbl) false = true <-> is_Some (tbl !! keyEvent).
Proof.
  rewrite fold_left_orb. simpl. rewrite existsb_exists, <- In_objectKeys. split.
  - intros [k [Hk E]]. apply String.eqb_eq in E. now subst.
  - intros H. exists keyEvent. split; [exact H | apply String.eqb_refl].
Qed.

(** ** Shortcut Registry *)

Lemma registerShortcut_conflict now m ks t d hd st k :
  In k (transformKeys ks) -> is_Some (targetTable (holding hd) st !! k) ->
  registerShortcut now m ks t d hd st = st.
Proof.
  intros Hk Hs. unfold registerShortcut.
  assert (E : existsIn (objectKeys (targetTable (holding hd) st)) (transformKeys ks) = true)
    by (apply conflict_iff; eauto).
  rewrite E. reflexivity.
Qed.

Lemma registerSequenceShortcut_conflict now m ks t d st :
  is_Some (sequenceListeners st !! toLowerCase (join "," ks)) ->
  registerSequenceShortcut now m ks t d st = st.
Proof.
  intros Hs. unfold registerSequenceShortcut.
  apply sequence_conflict_iff in Hs. rewrite Hs. reflexivity.
Qed.

(** A registration that passes the pre-check: one routing entry per
    combination, and the new shortcut at the end of the snapshot. *)
Lemma registerShortcut_fresh now m ks t d hd st :
  (forall k, In k (transformKeys ks) -> targetTable (holding hd) st !! k = None) ->
  registerShortcut now m ks t d hd st =
  set_shortcuts
    (shortcuts st ++ [chordShortcut now m ks t d hd])%list
    (fold_left (addListener (holding hd) (durationOf hd) m) (transformKeys ks) st).
Proof.
  intros H. unfold registerShortcut.
  apply no_conflict_iff in H. rewrite H. reflexivity.
Qed.

Lemma registerSequenceShortcut_fresh now m ks t d st :
  sequenceListeners st !! toLowerCase (join "," ks) = None ->
  registerSequenceShortcut now m ks t d st =
  {| holdDurations := holdDurations st;
     holdInterval := holdInterval st;
     holdListeners := holdListeners st;
     holdTimer := holdTimer st;
     keysDown := keysDown st;
     listeners := listeners st;
     previousKeys := previousKeys st;
     sequenceListeners := <[toLowerCase (join "," ks) := m]> (sequenceListeners st);
     sequenceTimer := sequenceTimer st;
     shortcuts := (shortcuts st ++ [sequenceShortcut now m ks t d])%list |}.
Proof.
  intros H. unfold registerSequenceShortcut.
  destruct (fold_left _ _ _) eqn:E; [|reflexivity].
  apply sequence_conflict_iff in E. rewrite H in E. now destruct E.
Qed.

Lemma addListeners_shortcuts hold_ dur m tks : forall st,
  shortcuts (fold_left (addListener hold_ dur m) tks st) = shortcuts st.
Proof.
  induction tks as [|k r IH]; intros st; simpl; [reflexivity|].
  rewrite IH. unfold addListener. now destruct hold_.
Qed.

Lemma addListeners_other hold_ dur m tks : forall st,
  targetTable (negb hold_) (fold_left (addListener hold_ dur m) tks st) =
  targetTable (negb hold_) st.
Proof.
  induction tks as [|k r IH]; intros st; simpl; [reflexivity|].
  rewrite IH. unfold addListener. now destruct hold_.
Qed.

Lemma addListeners_in hold_ dur m tks k : forall st,
  In k tks ->
  targetTable hold_ (fold_left (addListener hold_ dur m) tks st) !! k = Some m.
Proof.
  induction tks as [|x r IH]; intros st; simpl; [contradiction|].
  intros Hin. destruct (in_dec string_dec k r) as [Hr|Hr]; [now apply IH|].
  destruct Hin as [->|Hin]; [|contradiction].
  clear IH. revert st. induction r as [|y r IH]; intros st; simpl.
  - unfold addListener, targetTable. destruct hold_; simpl; apply lookup_insert_eq.
  - simpl in Hr.
    assert (Hswap : forall s,
      targetTable hold_ (fold_left (addListener hold_ dur m) r
                           (addListener hold_ dur m (addListener hold_ dur m s k) y)) !! k
      = targetTable hold_ (fold_left (addListener hold_ dur m) r
                           (addListener hold_ dur m s k)) !! k).
    { intros s. clear IH.
      assert (Hfr : forall s1 s2,
        targetTable hold_ s1 !! k = targetTable hold_ s2 !! k ->
        targetTable hold_ (fold_left (addListener hold_ dur m) r s1) !! k =
        targetTable hold_ (fold_left (addListener hold_ dur m) r s2) !! k).
      { assert (Hk : ~ In k r) by tauto. clear Hr.
        induction r as [|z r IHr]; intros s1 s2 E; simpl; [exact E|].
        apply IHr; [simpl in Hk; tauto|].
        assert (z <> k) by (simpl in Hk; tauto).
        unfold addListener, targetTable in *. destruct hold_; simpl in *;
          rewrite !lookup_insert_ne by assumption; exact E. }
      apply Hfr. assert (y <> k) by tauto.
      unfold addListener, targetTable. destruct hold_; simpl;
        rewrite lookup_insert_ne by assumption; reflexivity. }
    rewrite Hswap. apply IH. tauto.
Qed.

Lemma targetTable_set_shortcuts hold_ l st :
  targetTable hold_ (set_shortcuts l st) = targetTable hold_ st.
Proof. now destruct hold_. Qed.

(** After a chord registration none of whose other combinations is taken,
    the target table has an entry for each combination of the request. *)
Lemma registerShortcut_present now m ks t d hd st k :
  In k (transformKeys ks) ->
  (forall k', In k' (transformKeys ks) -> k' <> k ->
     targetTable (holding hd) st !! k' = None) ->
  is_Some (targetTable (holding hd) (registerShortcut now m ks t d hd st) !! k).
Proof.
  intros Hk Hothers.
  destruct (targetTable (holding hd) st !! k) as [v|] eqn:E.
  - rewrite (registerShortcut_conflict now m ks t d hd st k);
      [rewrite E; eauto | exact Hk | rewrite E; eauto].
  - rewrite registerShortcut_fresh.
    + rewrite targetTable_set_shortcuts, addListeners_in by exact Hk. eauto.
    + intros k' Hk'. destruct (string_dec k' k) as [->|Hne]; [exact E|].
      now apply Hothers.
Qed.

Lemma registerSequenceShortcut_present now m ks t d st :
  is_Some (sequenceListeners (registerSequenceShortcut now m ks t d st)
             !! toLowerCase (join "," ks)).
Proof.
  destruct (sequenceListeners st !! toLowerCase (join "," ks)) as [v|] eqn:E.
  - rewrite registerSequenceShortcut_conflict; rewrite E; eauto.
  - rewrite registerSequenceShortcut_fresh by exact E. simpl.
    rewrite lookup_insert_eq. eauto.
Qed.

(** C4. A registration one of whose canonicalized combinations is already
    a key of its target table (hold table with a hold duration,
    instantaneous table without, sequence table for sequences) returns the
    state it was given: no routing entry and no snapshot entry is added or
    changed. A second registration of a canonical combination in the same
    mode (after a first one that no other of its combinations blocked) is
    such a registration, and the table has exactly one entry for the
    combination. *)
Theorem C4_conflicting_registration_is_dropped :
  (forall now m ks t d hd st k,
     In k (transformKeys ks) -> is_Some (targetTable (holding hd) st !! k) ->
     registerShortcut now m ks t d hd st = st) /\
  (forall now m ks t d st,
     is_Some (sequenceListeners st !! toLowerCase (join "," ks)) ->
     registerSequenceShortcut now m ks t d st = st) /\
  (forall now1 now2 m1 m2 ks1 ks2 t1 d1 t2 d2 hd1 hd2 st k,
     holding hd1 = holding hd2 ->
     In k (transformKeys ks1) -> In k (transformKeys ks2) ->
     (forall k', In k' (transformKeys ks1) -> k' <> k ->
        targetTable (holding hd1) st !! k' = None) ->
     let st1 := registerShortcut now1 m1 ks1 t1 d1 hd1 st in
     registerShortcut now2 m2 ks2 t2 d2 hd2 st1 = st1 /\
     entriesFor k (targetTable (holding hd1) st1) = 1%nat) /\
  (forall now1 now2 m1 m2 ks1 ks2 t1 d1 t2 d2 st,
     toLowerCase (join "," ks1) = toLowerCase (join "," ks2) ->
     let st1 := registerSequenceShortcut now1 m1 ks1 t1 d1 st in
     registerSequenceShortcut now2 m2 ks2 t2 d2 st1 = st1 /\
     entriesFor (toLowerCase (join "," ks1)) (sequenceListeners st1) = 1%nat).
Proof.
  split; [intros; eapply registerShortcut_conflict; eassumption|].
  split; [intros; now apply registerSequenceShortcut_conflict|].
  split.
  - intros now1 now2 m1 m2 ks1 ks2 t1 d1 t2 d2 hd1 hd2 st k Hmode H1 H2 Hothers st1.
    pose proof (registerShortcut_present now1 m1 ks1 t1 d1 hd1 st k H1 Hothers) as Hp.
    fold st1 in Hp. split.
    + apply (registerShortcut_conflict _ _ _ _ _ _ _ k H2).
      rewrite <- Hmode. exact Hp.
    + now apply entriesFor_present.
  - intros now1 now2 m1 m2 ks1 ks2 t1 d1 t2 d2 st Hkey st1.
    pose proof (registerSequenceShortcut_present now1 m1 ks1 t1 d1 st) as Hp.
    fold st1 in Hp. split.
    + apply registerSequenceShortcut_conflict. rewrite <- Hkey. exact Hp.
    + now apply entriesFor_present.
Qed.

Lemma C4_conflicting_registration_is_dropped_witness :
  let st := registerShortcut 1 7 ["Ctrl+S"] "Save" "" None initialState in
  registerShortcut 2 8 ["x"; "control+s"] "Other" "" None st = st /\
  entriesFor "ctrl+s" (listeners st) = 1%nat.
Proof.
  destruct C4_conflicting_registration_is_dropped as (H1 & _ & H3 & _).
  split.
  - apply H1 with (k := "ctrl+s").
    + vm_compute. tauto.
    + vm_compute. eauto.
  - apply (H3 1%N 2%N 7%nat 8%nat ["Ctrl+S"] ["x"; "control+s"] "Save" ""
              "Other" "" None None initialState "ctrl+s" eq_refl).
    + vm_compute. tauto.
    + vm_compute. tauto.
    + intros k' [<-|[]] Hne. now destruct Hne.
Defined.

(** C7. From a state where neither the instantaneous nor the hold table
    has the canonical combination, registering it as an instantaneous
    shortcut and as a hold shortcut, in either order, succeeds both times:
    each table gets its entry and both shortcuts join the snapshot. *)
Theorem C7_instant_and_hold_tables_independent
    now1 now2 m1 m2 raw t1 d1 t2 d2 dur st :
  listeners st !! transformCombo raw = None ->
  holdListeners st !! transformCombo raw = None ->
  let k := transformCombo raw in
  (let st2 := registerShortcut now2 m2 [raw] t2 d2 (Some dur)
                (registerShortcut now1 m1 [raw] t1 d1 None st) in
   listeners st2 !! k = Some m1 /\ holdListeners st2 !! k = Some m2 /\
   holdDurations st2 !! k = Some dur /\
   shortcuts st2 =
     (shortcuts st ++ [chordShortcut now1 m1 [raw] t1 d1 None;
                       chordShortcut now2 m2 [raw] t2 d2 (Some dur)])%list) /\
  (let st2 := registerShortcut now2 m1 [raw] t1 d1 None
                (registerShortcut now1 m2 [raw] t2 d2 (Some dur) st) in
   listeners st2 !! k = Some m1 /\ holdListeners st2 !! k = Some m2 /\
   holdDurations st2 !! k = Some dur /\
   shortcuts st2 =
     (shortcuts st ++ [chordShortcut now1 m2 [raw] t2 d2 (Some dur);
                       chordShortcut now2 m1 [raw] t1 d1 None])%list).
Proof.
  intros Hl Hh k. split.
  - rewrite (registerShortcut_fresh now1 m1 [raw] t1 d1 None st)
      by (simpl; intros ? [<-|[]]; exact Hl).
    rewrite registerShortcut_fresh by (simpl; intros ? [<-|[]]; exact Hh).
    simpl. rewrite !lookup_insert_eq, <- app_assoc. auto.
  - rewrite (registerShortcut_fresh now1 m2 [raw] t2 d2 (Some dur) st)
      by (simpl; intros ? [<-|[]]; exact Hh).
    rewrite registerShortcut_fresh by (simpl; intros ? [<-|[]]; exact Hl).
    simpl. rewrite !lookup_insert_eq, <- app_assoc. auto.
Qed.

Lemma C7_instant_and_hold_tables_independent_witness :
  let st2 := registerShortcut 2 8 ["ctrl+s"] "Hold" "" (Some 300%Z)
               (registerShortcut 1 7 ["ctrl+s"] "Save" "" None initialState) in
  listeners st2 !! "ctrl+s" = Some 7%nat /\ holdListeners st2 !! "ctrl+s" = Some 8%nat /\
  length (shortcuts st2) = 2%nat.
Proof.
  destruct (C7_instant_and_hold_tables_independent 1 2 7%nat 8%nat "ctrl+s"
              "Save" "" "Hold" "" 300%Z initialState eq_refl eq_refl)
    as [(H1 & H2 & _ & H4) _].
  cbv zeta. split; [exact H1|]. split; [exact H2|]. rewrite H4. reflexivity.
Defined.

(** *** Unregistration *)

Lemma matches_contained tks s : matches tks s = true <-> contained tks s.
Proof.
  unfold matches, contained. rewrite fold_left_andb. simpl.
  rewrite forallb_forall. split; intros H k Hk.
  - apply indexOf_found. now apply H.
  - apply indexOf_found. now apply H.
Qed.

Lemma unregisterShortcut_snapshot ks sequence_ st :
  shortcuts (unregisterShortcut ks sequence_ st) =
  List.filter (fun s => negb (matches (transformKeys ks) s)) (shortcuts st).
Proof. reflexivity. Qed.

Lemma removeListeners_absent tks : forall st,
  absent tks false st -> fold_left removeListener tks st = st.
Proof.
  unfold absent. induction tks as [|k r IH]; intros st H; simpl; [reflexivity|].
  assert (E : removeListener st k = st).
  { destruct (H k) as (H1 & H2 & H3); [simpl; tauto|].
    destruct st; unfold removeListener; simpl in *.
    now rewrite !delete_id by assumption. }
  rewrite E. apply IH. intros k' Hk'. apply H. simpl. tauto.
Qed.

Lemma filter_all {A} (f : A -> bool) l :
  List.filter f l = l <-> forall x, In x l -> f x = true.
Proof.
  split.
  - intros E x Hx. rewrite <- E in Hx. now apply filter_In in Hx.
  - induction l as [|y r IH]; intros H; simpl; [reflexivity|].
    rewrite (H y) by (simpl; tauto). f_equal. apply IH.
    intros x Hx. apply H. simpl. tauto.
Qed.

Lemma set_shortcuts_same st : set_shortcuts (shortcuts st) st = st.
Proof. now destruct st. Qed.

(** C5, as the code has it. [unregisterShortcut] keeps a shortcut of the
    snapshot exactly when some key of its stored [keys] is missing from
    the canonicalized request (so a request with extra keys still removes
    the shortcuts whose keys are among its own). When the routing entries
    it would delete are absent, every table is left as it was; the snapshot
    is left as it was exactly when no stored shortcut has all its keys in
    the request. *)
Theorem C5_unregister_subset_removal ks sequence_ st :
  let tks := transformKeys ks in
  let st' := unregisterShortcut ks sequence_ st in
  (forall s, In s (shortcuts st') <-> In s (shortcuts st) /\ ~ contained tks s) /\
  (shortcuts st' = shortcuts st <->
     forall s, In s (shortcuts st) -> ~ contained tks s) /\
  (absent tks sequence_ st ->
     listeners st' = listeners st /\ holdListeners st' = holdListeners st /\
     holdDurations st' = holdDurations st /\
     sequenceListeners st' = sequenceListeners st /\
     ((forall s, In s (shortcuts st) -> ~ contained tks s) -> st' = st)).
Proof.
  cbv zeta.
  assert (Hkeep : forall s, negb (matches (transformKeys ks) s) = true <->
                            ~ contained (transformKeys ks) s).
  { intros s. rewrite negb_true_iff, <- not_true_iff_false.
    now rewrite matches_contained. }
  assert (Hsnap : shortcuts (unregisterShortcut ks sequence_ st) = shortcuts st <->
                  forall s, In s (shortcuts st) -> ~ contained (transformKeys ks) s).
  { rewrite unregisterShortcut_snapshot, filter_all.
    split; intros H s Hs; apply Hkeep; now apply H. }
  split; [|split; [exact Hsnap|]].
  - intros s. rewrite unregisterShortcut_snapshot, filter_In.
    now rewrite Hkeep.
  - intros Habs.
    assert (E : unregisterShortcut ks sequence_ st =
                set_shortcuts (shortcuts (unregisterShortcut ks sequence_ st)) st).
    { unfold unregisterShortcut. destruct sequence_; simpl.
      - unfold absent in Habs. rewrite delete_id by exact Habs.
        now destruct st.
      - now rewrite removeListeners_absent by exact Habs. }
    repeat (split; [rewrite E; reflexivity|]).
    intros Hnone. rewrite E, (proj2 Hsnap Hnone). apply set_shortcuts_same.
Qed.

Lemma C5_unregister_subset_removal_witness :
  let st := registerShortcut 1 7 ["ctrl+s"] "Save" "" None initialState in
  unregisterShortcut ["x"] false st = st.
Proof.
  destruct (C5_unregister_subset_removal ["x"] false
              (registerShortcut 1 7 ["ctrl+s"] "Save" "" None initialState))
    as (_ & _ & H).
  cbv zeta in H. apply H.
  - intros k [<-|[]]. vm_compute. auto.
  - intros s [<-|[]] Hc. specialize (Hc "ctrl+s"). vm_compute in Hc.
    destruct Hc as [Hc|[]]; [tauto | discriminate Hc].
Defined.

(** C5 as worded fails: in a state reached by [registerShortcut] and
    [unregisterShortcut] alone, no table has an entry for "a" or "b", yet
    unregistering ["a"; "b"] changes the snapshot. *)
Lemma C5_counterexample :
  let st := engine (run defaultProps boot
                      [RegisterShortcut 7 ["a"; "b"] "t" "d" None;
                       UnregisterShortcut ["a"] false;
                       UnregisterShortcut ["b"] false]) in
  absent (transformKeys ["a"; "b"]) false st /\
  length (shortcuts st) = 1%nat /\
  unregisterShortcut ["a"; "b"] false st <> st /\
  shortcuts (unregisterShortcut ["a"; "b"] false st) = [].
Proof.
  split; [|split; [|split]].
  - intros k [<-|[<-|[]]]; vm_compute; auto.
  - reflexivity.
  - intros E. apply (f_equal (fun s => length (shortcuts s))) in E.
    vm_compute in E. discriminate E.
  - reflexivity.
Qed.

(** *** Identifiers *)

Lemma register_snapshot now r st :
  shortcuts (register now r st) = shortcuts st \/
  exists s, shortcuts (register now r st) = (shortcuts st ++ [s])%list /\
            id s = toString36 now.
Proof.
  destruct r as [m ks t d hd | m ks t d]; simpl.
  - unfold registerShortcut. destruct (negb _); [right|now left].
    eexists. split; reflexivity.
  - unfold registerSequenceShortcut. destruct (negb _); [right|now left].
    eexists. split; reflexivity.
Qed.

Lemma register_created now r st s :
  shortcuts (register now r st) = (shortcuts st ++ [s])%list -> id s = toString36 now.
Proof.
  intros H. destruct (register_snapshot now r st) as [E|[s' [E Hid]]].
  - rewrite E in H. apply (f_equal (@length _)) in H.
    rewrite length_app in H. simpl in H. lia.
  - rewrite E in H. apply app_inv_head in H. now injection H as <-.
Qed.

(** C9, as the code has it. The identifier of a created shortcut is the
    clock reading in base 36: two successful registrations (of either
    kind) get the same [id] exactly when they read the same clock value. *)
Theorem C9_ids_differ_iff_clock_differs now1 now2 r1 r2 st1 st2 s1 s2 :
  shortcuts (register now1 r1 st1) = (shortcuts st1 ++ [s1])%list ->
  shortcuts (register now2 r2 st2) = (shortcuts st2 ++ [s2])%list ->
  (id s1 = id s2 <-> now1 = now2).
Proof.
  intros H1 H2. apply register_created in H1, H2. rewrite H1, H2. split.
  - apply toString36_inj.
  - now intros ->.
Qed.

Lemma C9_ids_differ_iff_clock_differs_witness :
  id (chordShortcut 1000 7 ["a"] "t" "d" None) <>
  id (sequenceShortcut 1001 8 ["b"] "t" "d").
Proof.
  intros E.
  apply (C9_ids_differ_iff_clock_differs 1000 1001
           (Chord 7 ["a"] "t" "d" None) (Ordered 8 ["b"] "t" "d")
           initialState initialState _ _ eq_refl eq_refl) in E.
  discriminate E.
Defined.

(** C9 as worded fails: two successful registrations made within the same
    millisecond create shortcuts with the same [id]. *)
Lemma C9_counterexample :
  let st1 := register 1000 (Chord 7 ["a"] "first" "" None) initialState in
  let st2 := register 1000 (Chord 8 ["b"] "second" "" None) st1 in
  map method (shortcuts st2) = [7%nat; 8%nat] /\
  map id (shortcuts st2) = ["rs"; "rs"].
Proof. split; reflexivity. Qed.

(** ** Dispatch Core: key-down *)

Lemma listening_iff props e st :
  listening props e st = true <->
  ~ In (toLowerCase (tagName e)) (ignoreList props) /\
  ~ In (toLowerCase (key e)) (keysDown st).
Proof.
  unfold listening. now rewrite andb_true_iff, !indexOf_missing.
Qed.

Lemma invocations_app tbl fx1 fx2 :
  invocations tbl (fx1 ++ fx2) = (invocations tbl fx1 ++ invocations tbl fx2)%list.
Proof. apply flat_map_app. Qed.

Lemma preventions_app fx1 fx2 :
  preventions (fx1 ++ fx2) = (preventions fx1 + preventions fx2)%nat.
Proof. unfold preventions. now rewrite List.filter_app, length_app. Qed.

(** What a key-down that passes the guard leaves behind. *)
Lemma keyDown_state props now e st :
  listening props e st = true ->
  let st' := fst (keyDown props now e st) in
  keysDown st' = (keysDown st ++ pressedKeys e)%list /\
  previousKeys st' = (previousKeys st ++ pressedKeys e)%list /\
  sequenceTimer st' = Some (now + 2000)%N /\
  holdInterval st' =
    Some {| due := now + 100; heldKeys := pressedKeys e;
            keyPress := join "+" (pressedKeys e); event := e |} /\
  holdTimer st' = match holdInterval st with Some _ => 0%Z | None => holdTimer st end /\
  listeners st' = listeners st /\ holdListeners st' = holdListeners st /\
  holdDurations st' = holdDurations st /\
  sequenceListeners st' = sequenceListeners st /\
  shortcuts st' = shortcuts st.
Proof.
  intros Hl. unfold keyDown. rewrite Hl. unfold resetTimer, createTimer.
  destruct st as [hd hi hl ht kd l pk sl stm sc]. simpl.
  destruct hi; simpl; repeat split; reflexivity.
Qed.

(** The effects of a key-down that passes the guard: the instantaneous
    dispatch, then the sequence dispatch. *)
Lemma keyDown_effects props now e st :
  listening props e st = true ->
  snd (keyDown props now e st) =
  (match listeners st !! join "+" (pressedKeys e) with
   | Some h => [PreventDefault e; Invoke Instant (join "+" (pressedKeys e)) h e]
   | None => []
   end ++
   match sequenceListeners st !! join "," (previousKeys st ++ pressedKeys e) with
   | Some h => [Invoke Sequence (join "," (previousKeys st ++ pressedKeys e)) h e]
   | None => []
   end)%list.
Proof.
  intros Hl. unfold keyDown. rewrite Hl. unfold resetTimer, createTimer.
  destruct st as [hd hi hl ht kd l pk sl stm sc]. simpl.
  destruct hi; reflexivity.
Qed.

Lemma keyDown_ignored props now e st :
  listening props e st = false -> keyDown props now e st = (st, []).
Proof. intros Hl. unfold keyDown. now rewrite Hl. Qed.

Lemma pressedKeys_last e : In (toLowerCase (key e)) (pressedKeys e).
Proof. unfold pressedKeys. rewrite !in_app_iff. simpl. tauto. Qed.

(** C1. A key-down on a target that is not ignored, for a key not recorded
    as down, whose combination (ctrl, alt, meta as flagged, then the
    lower-cased key, joined by [+]) is a key of the instantaneous table:
    the event's default is prevented and that handler is the one
    instantaneous invocation, made once (it is called once in all, unless
    the sequence table routes the buffer of this very key-down to the same
    handler). The key is then recorded as down, so that a repeated
    key-down of it, like a key-down on an ignored target, invokes nothing
    and returns the state unchanged. *)
Theorem C1_keyDown_instant_dispatch props now e st :
  let combo := join "+" (pressedKeys e) in
  (~ In (toLowerCase (tagName e)) (ignoreList props) ->
   ~ In (toLowerCase (key e)) (keysDown st) ->
   forall h, listeners st !! combo = Some h ->
     let fx := snd (keyDown props now e st) in
     let st' := fst (keyDown props now e st) in
     (exists rest, fx = PreventDefault e :: Invoke Instant combo h e :: rest) /\
     invocations Instant fx = [(combo, h)] /\
     preventions fx = 1%nat /\
     (sequenceListeners st !! join "," (previousKeys st ++ pressedKeys e) <> Some h ->
        calls h fx = 1%nat) /\
     (forall now' e', toLowerCase (key e') = toLowerCase (key e) ->
        keyDown props now' e' st' = (st', []))) /\
  (In (toLowerCase (tagName e)) (ignoreList props) \/
   In (toLowerCase (key e)) (keysDown st) ->
   keyDown props now e st = (st, [])).
Proof.
  intros combo. split.
  - intros Hig Hkd h Hh fx st'.
    assert (Hl : listening props e st = true) by (apply listening_iff; tauto).
    assert (Hfx : fx = ([PreventDefault e; Invoke Instant combo h e] ++
                        match sequenceListeners st !! join "," (previousKeys st ++ pressedKeys e) with
                        | Some h' => [Invoke Sequence (join "," (previousKeys st ++ pressedKeys e)) h' e]
                        | None => []
                        end)%list).
    { unfold fx. rewrite keyDown_effects by exact Hl. fold combo. now rewrite Hh. }
    split; [|split; [|split; [|split]]].
    + rewrite Hfx. simpl. eauto.
    + rewrite Hfx, invocations_app. simpl.
      now destruct (sequenceListeners st !! _).
    + rewrite Hfx, preventions_app.
      now destruct (sequenceListeners st !! _).
    + intros Hother. rewrite Hfx. unfold calls. simpl. rewrite Nat.eqb_refl.
      destruct (sequenceListeners st !! _) as [h'|]; [|reflexivity].
      simpl. destruct (Nat.eqb_spec h' h) as [->|_]; [now destruct Hother | reflexivity].
    + intros now' e' Hk. apply keyDown_ignored.
      apply not_true_iff_false. rewrite listening_iff, Hk.
      destruct (keyDown_state props now e st Hl) as (Hkeys & _).
      fold st' in Hkeys. rewrite Hkeys. intros [_ Hn]. apply Hn.
      apply in_app_iff. right. apply pressedKeys_last.
  - intros H. apply keyDown_ignored. apply not_true_iff_false.
    rewrite listening_iff. tauto.
Qed.

Lemma C1_keyDown_instant_dispatch_witness :
  let e := {| key := "K"; ctrlKey := true; altKey := false; metaKey := false;
              tagName := "DIV" |} in
  let st := registerShortcut 1 7 ["ctrl+k"] "Open" "" None initialState in
  invocations Instant (snd (keyDown defaultProps 5 e st)) = [("ctrl+k", 7%nat)] /\
  keyDown defaultProps 9 e (fst (keyDown defaultProps 5 e st)) =
    (fst (keyDown defaultProps 5 e st), []).
Proof.
  intros e st.
  destruct (C1_keyDown_instant_dispatch defaultProps 5 e st) as [H _].
  destruct (H ltac:(vm_compute; intuition discriminate)
              ltac:(vm_compute; tauto) 7%nat eq_refl) as (_ & Hinv & _ & _ & Hrep).
  split; [exact Hinv | apply Hrep; reflexivity].
Defined.

(** ** Timers leave the sequence tracker and the tables alone *)

Lemma resetTimer_fields st :
  let st' := resetTimer st in
  holdInterval st' = None /\
  keysDown st' = keysDown st /\ previousKeys st' = previousKeys st /\
  sequenceTimer st' = sequenceTimer st /\
  listeners st' = listeners st /\ holdListeners st' = holdListeners st /\
  holdDurations st' = holdDurations st /\
  sequenceListeners st' = sequenceListeners st /\ shortcuts st' = shortcuts st.
Proof.
  unfold resetTimer. destruct (holdInterval st) eqn:E; simpl; rewrite ?E; tauto.
Qed.

Lemma holdCallback_fields ks combo e : forall st,
  let st' := fst (fst (holdCallback ks combo e st)) in
  keysDown st' = keysDown st /\ previousKeys st' = previousKeys st /\
  sequenceTimer st' = sequenceTimer st /\
  listeners st' = listeners st /\ holdListeners st' = holdListeners st /\
  holdDurations st' = holdDurations st /\
  sequenceListeners st' = sequenceListeners st /\ shortcuts st' = shortcuts st.
Proof.
  induction ks as [|k r IH]; intros st; simpl; [tauto|].
  destruct (reached _ _); [|apply IH].
  destruct (holdListeners st !! combo); [|simpl; tauto].
  specialize (IH (resetTimer st)).
  destruct (holdCallback r combo e (resetTimer st)) as [[st1 fx] c]. simpl in *.
  destruct (resetTimer_fields st) as (_ & R).
  destruct IH as (I1 & I2 & I3 & I4 & I5 & I6 & I7 & I8).
  destruct R as (R1 & R2 & R3 & R4 & R5 & R6 & R7 & R8).
  rewrite I1, I2, I3, I4, I5, I6, I7, I8. tauto.
Qed.

Lemma intervalTick_fields st :
  let st' := fst (intervalTick st) in
  keysDown st' = keysDown st /\ previousKeys st' = previousKeys st /\
  sequenceTimer st' = sequenceTimer st /\
  listeners st' = listeners st /\ holdListeners st' = holdListeners st /\
  holdDurations st' = holdDurations st /\
  sequenceListeners st' = sequenceListeners st /\ shortcuts st' = shortcuts st.
Proof.
  unfold intervalTick. destruct (holdInterval st) as [iv|]; [|simpl; tauto].
  pose proof (holdCallback_fields (heldKeys iv) (keyPress iv) (event iv)
                (set_holdInterval
                   (Some {| due := due iv + 100; heldKeys := heldKeys iv;
                            keyPress := keyPress iv; event := event iv |}) st)) as H.
  destruct (holdCallback _ _ _ _) as [[st1 fx] c]. simpl in H.
  destruct c; simpl; exact H.
Qed.

Lemma keyUp_fields e st :
  let st' := keyUp e st in
  holdInterval st' = None /\ previousKeys st' = previousKeys st /\
  sequenceTimer st' = sequenceTimer st /\
  listeners st' = listeners st /\ holdListeners st' = holdListeners st /\
  holdDurations st' = holdDurations st /\
  sequenceListeners st' = sequenceListeners st /\ shortcuts st' = shortcuts st.
Proof.
  unfold keyUp.
  destruct (resetTimer_fields
              (set_keysDown
                 (List.filter (fun k => (indexOf (pressedKeys e) k <? 0)%Z) (keysDown st)) st))
    as (R0 & _ & R). simpl in R. tauto.
Qed.

(** The sequence tracker after one more millisecond. *)
Lemma elapse1_sequence h :
  let h' := elapse1 h in
  clock h' = (clock h + 1)%N /\
  sequenceListeners (engine h') = sequenceListeners (engine h) /\
  match sequenceTimer (engine h) with
  | Some d =>
      if (d <=? clock h + 1)%N
      then previousKeys (engine h') = [] /\ sequenceTimer (engine h') = None
      else previousKeys (engine h') = previousKeys (engine h) /\
           sequenceTimer (engine h') = Some d
  | None =>
      previousKeys (engine h') = previousKeys (engine h) /\
      sequenceTimer (engine h') = None
  end.
Proof.
  unfold elapse1, fireDue.
  set (tick := match holdInterval (engine h) with
               | Some iv => if (due iv <=? clock h + 1)%N
                            then intervalTick (engine h) else (engine h, [])
               | None => (engine h, [])
               end).
  assert (Ht : previousKeys (fst tick) = previousKeys (engine h) /\
               sequenceTimer (fst tick) = sequenceTimer (engine h) /\
               sequenceListeners (fst tick) = sequenceListeners (engine h)).
  { unfold tick. destruct (holdInterval (engine h)) as [iv|]; [|simpl; tauto].
    destruct (due iv <=? clock h + 1)%N; [|simpl; tauto].
    pose proof (intervalTick_fields (engine h)) as H. simpl in H. tauto. }
  destruct tick as [st1 fx]. simpl in Ht. destruct Ht as (P & T & L).
  simpl. rewrite T. split; [reflexivity|].
  destruct (sequenceTimer (engine h)) as [d|]; simpl.
  - destruct (d <=? clock h + 1)%N; simpl; auto.
  - auto.
Qed.

(** ** Sequence Tracker *)

Lemma step_keyDown props h e :
  clock (step props h (KeyDown e)) = clock h /\
  engine (step props h (KeyDown e)) = fst (keyDown props (clock h) e (engine h)) /\
  trace (step props h (KeyDown e)) =
    (trace h ++ snd (keyDown props (clock h) e (engine h)))%list.
Proof. simpl. now destruct (keyDown props (clock h) e (engine h)). Qed.

Lemma pressedKeys_bare e : bare e -> pressedKeys e = [toLowerCase (key e)].
Proof. intros (H1 & H2 & H3). unfold pressedKeys. now rewrite H1, H2, H3. Qed.

Lemma tracking_elapse1 t0 buf tbl h el :
  tracking t0 buf tbl h el -> tracking t0 buf tbl (elapse1 h) (S el).
Proof.
  intros (Hc & Ht & Hs).
  destruct (elapse1_sequence h) as (Hc' & Ht' & Hs'). cbv zeta in *.
  unfold tracking. rewrite Hc', Ht', Hc.
  split; [lia|]. split; [exact Ht|].
  destruct (Nat.ltb_spec el 2000) as [Hlt|Hge].
  - destruct Hs as [Hp Htm]. rewrite Htm, Hc in Hs'.
    destruct (N.leb_spec (t0 + 2000) (t0 + N.of_nat el + 1)) as [Hfire|Hwait].
    + destruct (Nat.ltb_spec (S el) 2000); [lia | exact Hs'].
    + destruct (Nat.ltb_spec (S el) 2000); [|lia].
      destruct Hs' as [-> ->]. now rewrite Hp.
  - destruct Hs as [Hp Htm]. rewrite Htm in Hs'.
    destruct (Nat.ltb_spec (S el) 2000); [lia|].
    destruct Hs' as [-> ->]. now rewrite Hp.
Qed.

Lemma tracking_elapse t0 buf tbl ms : forall h el,
  tracking t0 buf tbl h el -> tracking t0 buf tbl (Nat.iter ms elapse1 h) (el + ms).
Proof.
  induction ms as [|n IH]; intros h el H.
  - now rewrite Nat.add_0_r.
  - rewrite Nat.add_succ_r. simpl. apply tracking_elapse1. now apply IH.
Qed.

Lemma tracking_keyUp t0 buf tbl h el e :
  tracking t0 buf tbl h el -> tracking t0 buf tbl (on_engine (keyUp e) h) el.
Proof.
  intros (Hc & Ht & Hs). unfold tracking. simpl.
  destruct (keyUp_fields e (engine h)) as (_ & P & T & _ & _ & _ & L & _).
  cbv zeta in *. rewrite P, T, L. auto.
Qed.

Lemma tracking_run props t0 buf tbl gap : forall h el,
  Forall idle gap -> tracking t0 buf tbl h el ->
  tracking t0 buf tbl (run props h gap) (el + duration gap).
Proof.
  induction gap as [|a r IH]; intros h el Hidle H.
  - simpl. now rewrite Nat.add_0_r.
  - inversion Hidle as [|? ? Ha Hr]; subst.
    destruct a; simpl in Ha; try contradiction; unfold run in *; simpl.
    + apply IH; [exact Hr | now apply tracking_keyUp].
    + rewrite Nat.add_assoc. apply IH; [exact Hr | now apply tracking_elapse].
Qed.

Lemma length_append s t :
  String.length (s ++ t) = (String.length s + String.length t)%nat.
Proof. induction s as [|c r IH]; simpl; [reflexivity | now rewrite IH]. Qed.

Lemma sequence_key a b :
  toLowerCase (join "," [a; b]) = join "," [toLowerCase a; toLowerCase b].
Proof. simpl. now rewrite toLowerCase_app. Qed.

(** C3, as the code has it. With the key [a,b] in the sequence table
    and an empty buffer, a key-down of [a] without modifiers, then releases
    and waits lasting less than 2000ms, then a key-down of [b] without
    modifiers, invokes the handler of [a,b]. When more than
    2000ms pass, the timeout has emptied the buffer: the second key-down
    looks up [b] alone, the entry of [a,b] is not invoked, and the buffer
    holds [b]. Each of the two key-downs leaves the one timeout slot armed
    for 2000ms after it. *)
Theorem C3_sequence_window props h0 ea eb a b m gap :
  bare ea -> bare eb ->
  toLowerCase (key ea) = toLowerCase a ->
  toLowerCase (key eb) = toLowerCase b ->
  sequenceListeners (engine h0) !! toLowerCase (join "," [a; b]) = Some m ->
  previousKeys (engine h0) = [] ->
  listening props ea (engine h0) = true ->
  Forall idle gap ->
  let h1 := step props h0 (KeyDown ea) in
  let h2 := run props h1 gap in
  listening props eb (engine h2) = true ->
  let fx := snd (keyDown props (clock h2) eb (engine h2)) in
  let h3 := step props h2 (KeyDown eb) in
  (duration gap < 2000 ->
     invocations Sequence fx = [(toLowerCase (join "," [a; b]), m)]) /\
  (duration gap > 2000 ->
     (forall h, ~ In (toLowerCase (join "," [a; b]), h) (invocations Sequence fx)) /\
     (sequenceListeners (engine h0) !! toLowerCase b = None ->
        invocations Sequence fx = []) /\
     previousKeys (engine h3) = [toLowerCase b]) /\
  sequenceTimer (engine h1) = Some (clock h1 + 2000)%N /\
  sequenceTimer (engine h3) = Some (clock h3 + 2000)%N.
Proof.
  intros Ba Bb Ka Kb Hreg Hbuf La Hidle h1 h2 Lb fx h3.
  destruct (step_keyDown props h0 ea) as (C1 & E1 & _). fold h1 in C1, E1.
  destruct (keyDown_state props (clock h0) ea (engine h0) La)
    as (_ & P1 & T1 & _ & _ & _ & _ & _ & S1 & _).
  cbv zeta in P1, T1, S1. rewrite <- E1 in P1, T1, S1.
  rewrite Hbuf, (pressedKeys_bare ea Ba), Ka in P1. simpl in P1.
  assert (Htr : tracking (clock h0) [toLowerCase a] (sequenceListeners (engine h0))
                  h2 (duration gap)).
  { apply (tracking_run props _ _ _ gap h1 0%nat Hidle).
    unfold tracking. simpl. rewrite C1, P1, T1, S1. split; [lia|]. auto. }
  destruct Htr as (C2 & S2 & B2).
  destruct (step_keyDown props h2 eb) as (C3 & E3 & _). fold h3 in C3, E3.
  destruct (keyDown_state props (clock h2) eb (engine h2) Lb)
    as (_ & P3 & T3 & _).
  cbv zeta in P3, T3. rewrite <- E3 in P3, T3.
  assert (Hinv : invocations Sequence fx =
                 match sequenceListeners (engine h0)
                         !! join "," (previousKeys (engine h2) ++ [toLowerCase b]) with
                 | Some h => [(join "," (previousKeys (engine h2) ++ [toLowerCase b]), h)]
                 | None => []
                 end).
  { unfold fx. rewrite keyDown_effects by exact Lb.
    rewrite invocations_app, (pressedKeys_bare eb Bb), Kb, S2.
    set (k := join "," (previousKeys (engine h2) ++ [toLowerCase b])).
    destruct (listeners (engine h2) !! _);
      destruct (sequenceListeners (engine h0) !! k); reflexivity. }
  rewrite sequence_key in *.
  split; [|split; [|split]].
  - intros Hlt. destruct (Nat.ltb_spec (duration gap) 2000); [|lia].
    destruct B2 as [B2 _]. rewrite Hinv, B2. simpl app.
    now rewrite Hreg.
  - intros Hgt. destruct (Nat.ltb_spec (duration gap) 2000); [lia|].
    destruct B2 as [B2 _]. rewrite B2 in Hinv, P3. simpl in Hinv.
    split; [|split].
    + intros h Hin. rewrite Hinv in Hin.
      destruct (sequenceListeners (engine h0) !! toLowerCase b); [|contradiction].
      destruct Hin as [Heq|[]]. injection Heq as Heq _.
      apply (f_equal String.length) in Heq.
      cbn [join] in Heq.
      rewrite !length_append in Heq. cbn [String.length] in Heq. lia.
    + intros Hnone. now rewrite Hinv, Hnone.
    + rewrite P3, (pressedKeys_bare eb Bb), Kb. reflexivity.
  - rewrite C1. exact T1.
  - rewrite C3. exact T3.
Qed.

Lemma C3_sequence_window_witness :
  let ea := {| key := "a"; ctrlKey := false; altKey := false; metaKey := false;
               tagName := "DIV" |} in
  let eb := {| key := "b"; ctrlKey := false; altKey := false; metaKey := false;
               tagName := "DIV" |} in
  let h0 := run defaultProps boot [RegisterSequenceShortcut 9 ["a"; "b"] "Go" ""] in
  let h1 := step defaultProps h0 (KeyDown ea) in
  let h2 := run defaultProps h1 [Elapse 500; KeyUp ea; Elapse 300] in
  invocations Sequence (snd (keyDown defaultProps (clock h2) eb (engine h2))) =
    [(toLowerCase (join "," ["a"; "b"]), 9%nat)].
Proof.
  intros ea eb h0 h1 h2.
  assert (Ba : bare ea) by (repeat split).
  assert (Bb : bare eb) by (repeat split).
  assert (Hreg : sequenceListeners (engine h0) !! toLowerCase (join "," ["a"; "b"])
                 = Some 9%nat) by (vm_compute; reflexivity).
  assert (La : listening defaultProps ea (engine h0) = true) by (vm_compute; reflexivity).
  assert (Hidle : Forall idle [Elapse 500; KeyUp ea; Elapse 300]) by (repeat constructor).
  assert (Lb : listening defaultProps eb (engine h2) = true) by (vm_compute; reflexivity).
  assert (Hd : (duration [Elapse 500; KeyUp ea; Elapse 300] < 2000)%nat)
    by (cbn [duration]; lia).
  exact (proj1 (C3_sequence_window defaultProps h0 ea eb "a" "b" 9%nat
                  [Elapse 500; KeyUp ea; Elapse 300]
                  Ba Bb eq_refl eq_refl Hreg eq_refl La Hidle Lb) Hd).
Defined.

(** C3 as worded fails: the buffer is not emptied by a match. After [a]
    then [b] has invoked the handler, pressing [a] and then [b] again, each
    key-down well within 2000ms of the one before, invokes nothing: the
    buffer reads [a,b,a,b]. *)
Lemma C3_counterexample :
  let ea := {| key := "a"; ctrlKey := false; altKey := false; metaKey := false;
               tagName := "DIV" |} in
  let eb := {| key := "b"; ctrlKey := false; altKey := false; metaKey := false;
               tagName := "DIV" |} in
  let h := run defaultProps boot
             [RegisterSequenceShortcut 9 ["a"; "b"] "Go" "";
              KeyDown ea; KeyUp ea; Elapse 100; KeyDown eb; KeyUp eb; Elapse 100;
              KeyDown ea; KeyUp ea; Elapse 100] in
  trace h = [Invoke Sequence "a,b" 9%nat eb] /\
  sequenceListeners (engine h) !! "a,b" = Some 9%nat /\
  listening defaultProps eb (engine h) = true /\
  snd (keyDown defaultProps (clock h) eb (engine h)) = [] /\
  previousKeys (fst (keyDown defaultProps (clock h) eb (engine h))) =
    ["a"; "b"; "a"; "b"].
Proof. repeat split; vm_compute; reflexivity. Qed.

(** ** Hold Timer *)

Lemma holdCallback_unreached ks combo e : forall st,
  (forall k, In k ks -> reached (holdTimer st) (holdDurations st !! k) = false) ->
  holdCallback ks combo e st = (st, [], Normal).
Proof.
  induction ks as [|k r IH]; intros st H; simpl; [reflexivity|].
  rewrite (H k) by (simpl; tauto). apply IH. intros k' Hk'. apply H. simpl. tauto.
Qed.

(** While no captured key has a stored duration, a millisecond passing
    invokes nothing and leaves the interval live. *)
Lemma unmeasured_elapse1 h :
  unmeasured (engine h) ->
  unmeasured (engine (elapse1 h)) /\ trace (elapse1 h) = trace h.
Proof.
  intros (iv & Hiv & Hnone). unfold elapse1, fireDue. rewrite Hiv.
  set (tick := if (due iv <=? clock h + 1)%N
               then intervalTick (engine h) else (engine h, [])).
  assert (Htick : unmeasured (fst tick) /\ snd tick = []).
  { unfold tick. destruct (due iv <=? clock h + 1)%N.
    - unfold intervalTick. rewrite Hiv, holdCallback_unreached.
      + simpl. split; [|reflexivity].
        eexists. simpl. split; [reflexivity | exact Hnone].
      + intros k Hk. simpl. now rewrite (Hnone k Hk).
    - simpl. split; [exists iv; auto | reflexivity]. }
  destruct tick as [st1 fx]. simpl in Htick. destruct Htick as [Hu ->].
  simpl. rewrite app_nil_r. split; [|reflexivity].
  destruct (sequenceTimer st1) as [d|]; [destruct (d <=? clock h + 1)%N|]; exact Hu.
Qed.

Lemma unmeasured_elapse n : forall h,
  unmeasured (engine h) ->
  unmeasured (engine (Nat.iter n elapse1 h)) /\ trace (Nat.iter n elapse1 h) = trace h.
Proof.
  induction n as [|n IH]; intros h Hu; simpl; [auto|].
  destruct (IH h Hu) as [Hu' Ht].
  destruct (unmeasured_elapse1 _ Hu') as [Hu'' Ht'].
  split; [exact Hu'' | congruence].
Qed.

(** Once the interval is cleared, time passing invokes nothing. *)
Lemma cleared_elapse1 h :
  holdInterval (engine h) = None ->
  holdInterval (engine (elapse1 h)) = None /\ trace (elapse1 h) = trace h.
Proof.
  intros Hn. unfold elapse1, fireDue. rewrite Hn.
  destruct (sequenceTimer (engine h)) as [d|]; simpl.
  - destruct (d <=? clock h + 1)%N; simpl; rewrite app_nil_r; auto.
  - rewrite app_nil_r. auto.
Qed.

Lemma cleared_elapse n : forall h,
  holdInterval (engine h) = None ->
  holdInterval (engine (Nat.iter n elapse1 h)) = None /\
  trace (Nat.iter n elapse1 h) = trace h.
Proof.
  induction n as [|n IH]; intros h Hn; simpl; [auto|].
  destruct (IH h Hn) as [Hn' Ht].
  destruct (cleared_elapse1 _ Hn') as [Hn'' Ht'].
  split; [exact Hn'' | congruence].
Qed.

(** A key-up clears the interval whatever keys remain down: the pending
    hold never fires for that press. *)
Lemma keyUp_cancels_hold e h n :
  trace (Nat.iter n elapse1 (on_engine (keyUp e) h)) = trace h.
Proof.
  destruct (cleared_elapse n (on_engine (keyUp e) h)) as [_ Ht]; [|exact Ht].
  simpl. destruct (keyUp_fields e (engine h)) as [H _]. exact H.
Qed.

Lemma trace_grows n : forall h, exists fx, trace (Nat.iter n elapse1 h) = (trace h ++ fx)%list.
Proof.
  induction n as [|n IH]; intros h; simpl.
  - exists []. now rewrite app_nil_r.
  - destruct (IH h) as [fx Hfx]. unfold elapse1 at 1.
    destruct (fireDue _ _) as [st fx']. simpl. rewrite Hfx.
    exists (fx ++ fx')%list. now rewrite app_assoc.
Qed.

(** A hold shortcut on the bare key [k] with duration 300, on a fresh
    provider: holding [k] invokes the handler at the fourth tick (400ms
    after the key-down, when the counter checked is 300), once. *)
Lemma hold_single_key_timeline n :
  let e := {| key := "k"; ctrlKey := false; altKey := false; metaKey := false;
              tagName := "DIV" |} in
  invocations Hold
    (trace (run defaultProps boot
              [RegisterShortcut 7 ["k"] "Hold" "" (Some 300%Z); KeyDown e; Elapse n])) =
  if (n <? 400)%nat then [] else [("k", 7%nat)].
Proof.
  intros e.
  set (h1 := run defaultProps boot
               [RegisterShortcut 7 ["k"] "Hold" "" (Some 300%Z); KeyDown e]).
  change (invocations Hold (trace (Nat.iter n elapse1 h1)) =
          if (n <? 400)%nat then [] else [("k", 7%nat)]).
  assert (H399 : trace (Nat.iter 399 elapse1 h1) = []) by (vm_compute; reflexivity).
  assert (H400 : trace (Nat.iter 400 elapse1 h1) = [Invoke Hold "k" 7%nat e] /\
                 holdInterval (engine (Nat.iter 400 elapse1 h1)) = None)
    by (vm_compute; auto).
  destruct (Nat.ltb_spec n 400) as [Hlt|Hge].
  - replace 399%nat with ((399 - n) + n)%nat in H399 by lia.
    rewrite Nat.iter_add in H399.
    destruct (trace_grows (399 - n) (Nat.iter n elapse1 h1)) as [fx Hfx].
    rewrite H399 in Hfx. symmetry in Hfx. apply app_eq_nil in Hfx as [-> _].
    reflexivity.
  - replace n with ((n - 400) + 400)%nat by lia. rewrite Nat.iter_add.
    destruct H400 as [Ht Hn].
    destruct (cleared_elapse (n - 400) _ Hn) as [_ ->]. rewrite Ht. reflexivity.
Qed.

(** C2, at the failing input. A hold shortcut registered for the
    combination [ctrl+k] with duration 300 stores its duration under the
    key [ctrl+k]; the tick looks durations up under [ctrl] and [k]. However
    long ctrl+k is held, the handler is not invoked. *)
Theorem C2_hold_combo_never_fires n :
  let e := {| key := "k"; ctrlKey := true; altKey := false; metaKey := false;
              tagName := "DIV" |} in
  let h := run defaultProps boot
             [RegisterShortcut 7 ["ctrl+k"] "Hold" "" (Some 300%Z); KeyDown e; Elapse n] in
  holdListeners (engine h) !! "ctrl+k" = Some 7%nat /\
  holdDurations (engine h) !! "ctrl+k" = Some 300%Z /\
  trace h = [].
Proof.
  intros e.
  set (h1 := run defaultProps boot
               [RegisterShortcut 7 ["ctrl+k"] "Hold" "" (Some 300%Z); KeyDown e]).
  cbv zeta.
  change (run defaultProps boot
            [RegisterShortcut 7 ["ctrl+k"] "Hold" "" (Some 300%Z); KeyDown e; Elapse n])
    with (Nat.iter n elapse1 h1).
  assert (Hu : unmeasured (engine h1)).
  { eexists. split; [vm_compute; reflexivity|].
    intros k [<-|[<-|[]]]; vm_compute; reflexivity. }
  destruct (unmeasured_elapse n h1 Hu) as [_ Ht].
  assert (Hfields : holdListeners (engine (Nat.iter n elapse1 h1)) = holdListeners (engine h1) /\
                    holdDurations (engine (Nat.iter n elapse1 h1)) = holdDurations (engine h1)).
  { clear. induction n as [|n [IH1 IH2]]; simpl; [auto|].
    unfold elapse1 at 1 3. unfold fireDue.
    set (hn := Nat.iter n elapse1 h1) in *.
    assert (Ht : forall st fx, (st, fx) = match holdInterval (engine hn) with
                   | Some iv => if (due iv <=? clock hn + 1)%N
                                then intervalTick (engine hn) else (engine hn, [])
                   | None => (engine hn, [])
                   end ->
                 holdListeners st = holdListeners (engine hn) /\
                 holdDurations st = holdDurations (engine hn)).
    { intros st fx E. destruct (holdInterval (engine hn)) as [iv|].
      - destruct (due iv <=? clock hn + 1)%N.
        + pose proof (intervalTick_fields (engine hn)) as H. rewrite <- E in H.
          simpl in H. tauto.
        + injection E as -> _. auto.
      - injection E as -> _. auto. }
    destruct (match holdInterval (engine hn) with Some _ => _ | None => _ end)
      as [st fx] eqn:E.
    destruct (Ht st fx eq_refl) as [Hl Hd]. simpl.
    destruct (sequenceTimer st) as [d|]; [destruct (d <=? clock hn + 1)%N|]; simpl;
      rewrite Hl, Hd; auto. }
  destruct Hfields as [-> ->]. rewrite Ht. repeat split.
Qed.

(** C10, at the failing input. A hold shortcut is registered for the bare
    key [k] with duration 300 and [k] is pressed with ctrl held. After
    three ticks the state, reached from the initial one, breaks the safety
    property: the counter has reached the duration stored for [k], and the
    hold table has no entry for the captured combination [ctrl+k]. The
    fourth tick calls that absent entry. *)
Theorem C10_tick_calls_absent_handler :
  let e := {| key := "k"; ctrlKey := true; altKey := false; metaKey := false;
              tagName := "DIV" |} in
  let h := run defaultProps boot
             [RegisterShortcut 7 ["k"] "Hold" "" (Some 300%Z); KeyDown e; Elapse 399] in
  reachable defaultProps h /\
  ~ tickSafe (engine h) /\
  holdListeners (engine h) !! "ctrl+k" = None /\
  trace h = [] /\
  trace (step defaultProps h (Elapse 1)) = [TypeError "ctrl+k"] /\
  typeErrors (trace (step defaultProps h (Elapse 101))) = ["ctrl+k"; "ctrl+k"].
Proof.
  intros e h. split; [|split; [|split; [|split; [|split]]]].
  - eexists. reflexivity.
  - intros Hsafe.
    assert (Hiv : holdInterval (engine h) =
                  Some {| due := 400; heldKeys := ["ctrl"; "k"];
                          keyPress := "ctrl+k"; event := e |})
      by (vm_compute; reflexivity).
    specialize (Hsafe _ Hiv "k" ltac:(simpl; tauto) ltac:(vm_compute; reflexivity)).
    destruct Hsafe as [x Hx]. vm_compute in Hx. discriminate Hx.
  - vm_compute. reflexivity.
  - vm_compute. reflexivity.
  - vm_compute. reflexivity.
  - vm_compute. reflexivity.
Qed.

(** ** Stored keys *)

Lemma keysCanonical_register now m ks t d hd st :
  keysCanonical st -> keysCanonical (registerShortcut now m ks t d hd st).
Proof.
  intros H. unfold registerShortcut. destruct (negb _); [|exact H].
  unfold keysCanonical. simpl. apply Forall_app. split; [exact H|].
  constructor; [|constructor]. simpl. unfold transformKeys.
  induction ks as [|raw r IH]; simpl; constructor;
    [apply transformCombo_canonical | exact IH].
Qed.

Lemma keysCanonical_unregister ks sequence_ st :
  keysCanonical st -> keysCanonical (unregisterShortcut ks sequence_ st).
Proof.
  unfold keysCanonical. rewrite unregisterShortcut_snapshot.
  generalize (shortcuts st). intros l H.
  induction H as [|s r Hs _ IH]; simpl; [constructor|].
  destruct (negb _); [constructor; assumption | exact IH].
Qed.

Lemma keyDown_shortcuts props now e st :
  shortcuts (fst (keyDown props now e st)) = shortcuts st.
Proof.
  destruct (listening props e st) eqn:Hl.
  - now destruct (keyDown_state props now e st Hl) as (_&_&_&_&_&_&_&_&_&H).
  - now rewrite keyDown_ignored.
Qed.

Lemma elapse1_shortcuts h : shortcuts (engine (elapse1 h)) = shortcuts (engine h).
Proof.
  unfold elapse1, fireDue.
  set (tick := match holdInterval (engine h) with
               | Some iv => if (due iv <=? clock h + 1)%N
                            then intervalTick (engine h) else (engine h, [])
               | None => (engine h, [])
               end).
  assert (Ht : shortcuts (fst tick) = shortcuts (engine h)).
  { unfold tick. destruct (holdInterval (engine h)) as [iv|]; [|reflexivity].
    destruct (due iv <=? clock h + 1)%N; [|reflexivity].
    now destruct (intervalTick_fields (engine h)) as (_&_&_&_&_&_&_&H). }
  destruct tick as [st1 fx]. simpl in *.
  destruct (sequenceTimer st1) as [d|]; [destruct (d <=? clock h + 1)%N|]; exact Ht.
Qed.

Lemma elapse_shortcuts n h :
  shortcuts (engine (Nat.iter n elapse1 h)) = shortcuts (engine h).
Proof.
  induction n as [|n IH]; simpl; [reflexivity|]. now rewrite elapse1_shortcuts.
Qed.

(** On the chord path the invariant of C8 holds: as long as no sequence
    is registered, every stored key is canonical. *)
Lemma keysCanonical_chords props acts : forall h,
  Forall chordOnly acts -> keysCanonical (engine h) ->
  keysCanonical (engine (run props h acts)).
Proof.
  unfold run. induction acts as [|a r IH]; intros h Hc Hk; simpl; [exact Hk|].
  inversion Hc as [|? ? Ha Hr]; subst. apply IH; [exact Hr|].
  destruct a; simpl in Ha |- *; try contradiction.
  - destruct (step_keyDown props h e) as (_ & E & _). simpl in E.
    unfold keysCanonical in *. rewrite E, keyDown_shortcuts. exact Hk.
  - unfold keysCanonical in *.
    now destruct (keyUp_fields e (engine h)) as (_&_&_&_&_&_&_&->).
  - unfold keysCanonical in *. now rewrite elapse_shortcuts.
  - now apply keysCanonical_register.
  - now apply keysCanonical_unregister.
Qed.

(** C8, at the failing input. [registerSequenceShortcut] stores the keys
    as given: registering the sequence ["A"; "B"] routes it under the
    lower-cased key [a,b] but records ["A"; "B"] in the snapshot, where
    [registerShortcut] records ["a"; "b"]. Unregistering the same sequence
    then deletes the routing entry and, comparing canonical keys with the
    stored raw ones, leaves the shortcut in the snapshot. *)
Theorem C8_sequence_keys_stored_raw :
  let st := registerSequenceShortcut 1 9 ["A"; "B"] "Go" "" initialState in
  map keys (shortcuts st) = [["A"; "B"]] /\
  ~ keysCanonical st /\
  objectKeys (sequenceListeners st) = ["a,b"] /\
  map keys (shortcuts (registerShortcut 1 9 ["A"; "B"] "Go" "" None initialState)) =
    [["a"; "b"]] /\
  (let st' := unregisterShortcut ["A"; "B"] true st in
   objectKeys (sequenceListeners st') = [] /\ shortcuts st' = shortcuts st).
Proof.
  intros st. split; [reflexivity|]. split; [|split; [|split; [|split]]].
  - intros H. unfold keysCanonical in H. 
    assert (Hs : shortcuts st = [sequenceShortcut 1 9 ["A"; "B"] "Go" ""])
      by reflexivity.
    rewrite Hs in H. inversion H as [|? ? Hk _]; subst.
    inversion Hk as [|? ? Ha _]; subst.
    unfold canonical in Ha. vm_compute in Ha. discriminate Ha.
  - vm_compute. reflexivity.
  - vm_compute. reflexivity.
  - vm_compute. reflexivity.
  - vm_compute. reflexivity.
Qed.

(* ================================================================== *)
(** * Further properties of the engine *)
(* ================================================================== *)

(** ** Key Normalizer *)

Lemma split_toLowerCase s :
  split "+" (toLowerCase s) = map toLowerCase (split "+" s).
Proof.
  induction s as [|c r IH]; simpl; [reflexivity|].
  rewrite lower_ascii_eqb_plus. destruct (Ascii.eqb c "+") eqn:E.
  - simpl. now rewrite IH.
  - rewrite IH. destruct (split "+" r) as [|h t]; reflexivity.
Qed.

Lemma transformKey_toLowerCase t : transformKey (toLowerCase t) = transformKey t.
Proof. unfold transformKey. now rewrite toLowerCase_idem. Qed.

Lemma transformCombo_toLowerCase raw :
  transformCombo (toLowerCase raw) = transformCombo raw.
Proof.
  unfold transformCombo. rewrite split_toLowerCase, map_map. f_equal.
  apply map_ext. intros t. apply transformKey_toLowerCase.
Qed.

Lemma toLowerCase_join sep l :
  toLowerCase (join sep l) = join (toLowerCase sep) (map toLowerCase l).
Proof.
  induction l as [|x r IH]; [reflexivity|].
  destruct r as [|y r']; [reflexivity|].
  change (join sep (x :: y :: r')) with (x ++ sep ++ join sep (y :: r')).
  rewrite !toLowerCase_app, IH. reflexivity.
Qed.

Lemma transformCombo_lowerCased raw : lowerCased (transformCombo raw).
Proof.
  unfold lowerCased, transformCombo. rewrite toLowerCase_join, map_map.
  f_equal. apply map_ext. intros t. apply transformKey_lowerCased.
Qed.

Lemma transformKey_not_alias t : ~ In (transformKey t) (map fst aliasTable).
Proof.
  destruct (transformKey_cases t) as [Hin|[Hn ->]]; [|exact Hn].
  simpl in Hin.
  repeat (destruct Hin as [Hin|Hin];
          [injection Hin as _ <-; simpl; intuition discriminate|]).
  contradiction.
Qed.

(** X1. Normalizing is idempotent: the normalizer leaves its own output
    unchanged, combination by combination. *)
Theorem X1_transformKeys_idempotent ks :
  transformKeys (transformKeys ks) = transformKeys ks /\
  Forall canonical (transformKeys ks).
Proof.
  split; [apply transformKeys_idem|].
  unfold transformKeys. induction ks as [|raw r IH]; simpl; constructor;
    [apply transformCombo_canonical | exact IH].
Qed.

(** X2. Normalizing ignores letter case: two lists of raw combinations
    that agree once lower-cased normalize to the same list. *)
Theorem X2_transformKeys_case_insensitive ks1 ks2 :
  map toLowerCase ks1 = map toLowerCase ks2 ->
  transformKeys ks1 = transformKeys ks2.
Proof.
  intros H.
  assert (E : forall ks, transformKeys ks = transformKeys (map toLowerCase ks)).
  { intros ks. unfold transformKeys. rewrite map_map. apply map_ext.
    intros raw. symmetry. apply transformCombo_toLowerCase. }
  rewrite (E ks1), (E ks2), H. reflexivity.
Qed.

Lemma X2_transformKeys_case_insensitive_witness :
  transformKeys ["CTRL+S"; "Cmd+K"] = transformKeys ["ctrl+s"; "cmd+k"].
Proof. apply X2_transformKeys_case_insensitive. reflexivity. Defined.

(** X3. No normalized combination holds an upper-case letter, and none of
    its [+]-segments is one of the alias names opt, option, control, cmd,
    command. *)
Theorem X3_transformKeys_output_vocabulary ks out :
  In out (transformKeys ks) ->
  lowerCased out /\
  forall seg, In seg (split "+" out) -> ~ In seg (map fst aliasTable).
Proof.
  unfold transformKeys. rewrite in_map_iff. intros [raw [<- _]]. split.
  - apply transformCombo_lowerCased.
  - rewrite split_transformCombo. intros seg Hseg.
    apply in_map_iff in Hseg as [t [<- _]]. apply transformKey_not_alias.
Qed.

Lemma X3_transformKeys_output_vocabulary_witness :
  lowerCased "meta+alt+k".
Proof.
  apply (X3_transformKeys_output_vocabulary ["Command+OPTION+K"] "meta+alt+k").
  simpl. tauto.
Defined.

(** ** Shortcut Registry: the routing tables *)

Lemma insertAll_in {V} (ks : list string) (v : V) k : forall o,
  In k ks -> insertAll ks v o !! k = Some v.
Proof.
  unfold insertAll. induction ks as [|x r IH]; intros o; simpl; [contradiction|].
  intros Hin. destruct (in_dec string_dec k r) as [Hr|Hr]; [now apply IH|].
  destruct Hin as [->|Hin]; [|contradiction].
  clear IH. revert o. induction r as [|y r IH]; intros o; simpl.
  - apply lookup_insert_eq.
  - simpl in Hr. rewrite insert_insert_ne by tauto. apply IH. tauto.
Qed.

Lemma insertAll_notin {V} (ks : list string) (v : V) k : forall o,
  ~ In k ks -> insertAll ks v o !! k = o !! k.
Proof.
  unfold insertAll. induction ks as [|x r IH]; intros o Hn; simpl; [reflexivity|].
  simpl in Hn. rewrite IH by tauto. apply lookup_insert_ne. tauto.
Qed.

Lemma deleteAll_in {V} (ks : list string) k : forall o : gmap string V,
  In k ks -> deleteAll ks o !! k = None.
Proof.
  unfold deleteAll. induction ks as [|x r IH]; intros o; simpl; [contradiction|].
  intros Hin. destruct (in_dec string_dec k r) as [Hr|Hr]; [now apply IH|].
  destruct Hin as [->|Hin]; [|contradiction].
  clear IH. revert o. induction r as [|y r IH]; intros o; simpl.
  - apply lookup_delete_eq.
  - simpl in Hr. rewrite delete_delete. apply IH. tauto.
Qed.

Lemma deleteAll_notin {V} (ks : list string) k : forall o : gmap string V,
  ~ In k ks -> deleteAll ks o !! k = o !! k.
Proof.
  unfold deleteAll. induction ks as [|x r IH]; intros o Hn; simpl; [reflexivity|].
  simpl in Hn. rewrite IH by tauto. apply lookup_delete_ne. tauto.
Qed.

Lemma deleteAll_absent {V} (ks : list string) (o : gmap string V) :
  (forall k, In k ks -> o !! k = None) -> deleteAll ks o = o.
Proof.
  intros H. apply map_eq. intros k.
  destruct (in_dec string_dec k ks) as [Hin|Hn].
  - now rewrite deleteAll_in, H.
  - now apply deleteAll_notin.
Qed.

Lemma deleteAll_insertAll {V} (ks : list string) (v : V) (o : gmap string V) :
  (forall k, In k ks -> o !! k = None) -> deleteAll ks (insertAll ks v o) = o.
Proof.
  intros H. apply map_eq. intros k.
  destruct (in_dec string_dec k ks) as [Hin|Hn].
  - now rewrite deleteAll_in, H.
  - rewrite deleteAll_notin by exact Hn. now apply insertAll_notin.
Qed.

(** The state after the [forEach] of [registerShortcut], field by field. *)
Lemma addListeners_record hold_ dur m tks : forall st,
  fold_left (addListener hold_ dur m) tks st =
  {| holdDurations := if hold_ then insertAll tks dur (holdDurations st)
                      else holdDurations st;
     holdInterval := holdInterval st;
     holdListeners := if hold_ then insertAll tks m (holdListeners st)
                      else holdListeners st;
     holdTimer := holdTimer st;
     keysDown := keysDown st;
     listeners := if hold_ then listeners st else insertAll tks m (listeners st);
     previousKeys := previousKeys st;
     sequenceListeners := sequenceListeners st;
     sequenceTimer := sequenceTimer st;
     shortcuts := shortcuts st |}.
Proof.
  induction tks as [|k r IH]; intros st.
  - destruct st, hold_; reflexivity.
  - simpl. rewrite IH. unfold addListener, insertAll. destruct hold_; reflexivity.
Qed.

(** The state after the [forEach] of [unregisterShortcut], field by field. *)
Lemma removeListeners_record tks : forall st,
  fold_left removeListener tks st =
  {| holdDurations := deleteAll tks (holdDurations st);
     holdInterval := holdInterval st;
     holdListeners := deleteAll tks (holdListeners st);
     holdTimer := holdTimer st;
     keysDown := keysDown st;
     listeners := deleteAll tks (listeners st);
     previousKeys := previousKeys st;
     sequenceListeners := sequenceListeners st;
     sequenceTimer := sequenceTimer st;
     shortcuts := shortcuts st |}.
Proof.
  induction tks as [|k r IH]; intros st.
  - destruct st; reflexivity.
  - simpl. rewrite IH. unfold removeListener, deleteAll. reflexivity.
Qed.

(** X4. A chord registration that passes the pre-check routes every
    combination of the request to the handler in its target table (and
    stores the duration under each when it is a hold registration), leaves
    every other key of the three chord tables, the other mode's table and
    the sequence table as they were, and appends one shortcut to the
    snapshot. *)
Theorem X4_registerShortcut_routes now m ks t d hd st :
  (forall k, In k (transformKeys ks) -> targetTable (holding hd) st !! k = None) ->
  let st' := registerShortcut now m ks t d hd st in
  (forall k, In k (transformKeys ks) ->
     targetTable (holding hd) st' !! k = Some m /\
     (holding hd = true -> holdDurations st' !! k = Some (durationOf hd))) /\
  (forall k, ~ In k (transformKeys ks) ->
     listeners st' !! k = listeners st !! k /\
     holdListeners st' !! k = holdListeners st !! k /\
     holdDurations st' !! k = holdDurations st !! k) /\
  targetTable (negb (holding hd)) st' = targetTable (negb (holding hd)) st /\
  sequenceListeners st' = sequenceListeners st /\
  shortcuts st' = (shortcuts st ++ [chordShortcut now m ks t d hd])%list.
Proof.
  intros Hfresh. cbv zeta. rewrite registerShortcut_fresh by exact Hfresh.
  rewrite addListeners_record. unfold targetTable, set_shortcuts. simpl.
  split; [|split; [|split; [|split]]].
  - intros k Hk. destruct (holding hd); simpl.
    + split; [now apply insertAll_in|]. intros _. now apply insertAll_in.
    + split; [now apply insertAll_in | discriminate].
  - intros k Hk. destruct (holding hd); simpl;
      rewrite ?insertAll_notin by exact Hk; auto.
  - destruct (holding hd); reflexivity.
  - reflexivity.
  - reflexivity.
Qed.

Lemma X4_registerShortcut_routes_witness :
  let st' := registerShortcut 5 7 ["Cmd+K"; "ctrl+k"] "Open" "" (Some 300%Z) initialState in
  holdListeners st' !! "meta+k" = Some 7%nat /\
  holdDurations st' !! "ctrl+k" = Some 300%Z /\
  listeners st' = ∅.
Proof.
  destruct (X4_registerShortcut_routes 5 7%nat ["Cmd+K"; "ctrl+k"] "Open" ""
              (Some 300%Z) initialState)
    as (Hin & _ & Hother & _).
  - intros k _. apply lookup_empty.
  - cbv zeta. split; [|split].
    + apply (Hin "meta+k"). simpl. tauto.
    + apply (Hin "ctrl+k"); [simpl; tauto | reflexivity].
    + exact Hother.
Defined.

(** X5. [unregisterShortcut] without the sequence flag deletes every
    combination of the request from the instantaneous table, the hold
    table and the duration table at once, whichever mode registered it,
    and touches no other key and not the sequence table. With the flag it
    deletes the one comma-joined key from the sequence table and touches
    no chord table. *)
Theorem X5_unregisterShortcut_routing ks st k :
  (let st' := unregisterShortcut ks false st in
   (In k (transformKeys ks) ->
      listeners st' !! k = None /\ holdListeners st' !! k = None /\
      holdDurations st' !! k = None) /\
   (~ In k (transformKeys ks) ->
      listeners st' !! k = listeners st !! k /\
      holdListeners st' !! k = holdListeners st !! k /\
      holdDurations st' !! k = holdDurations st !! k) /\
   sequenceListeners st' = sequenceListeners st) /\
  (let st' := unregisterShortcut ks true st in
   listeners st' = listeners st /\ holdListeners st' = holdListeners st /\
   holdDurations st' = holdDurations st /\
   sequenceListeners st' !! join "," (transformKeys ks) = None /\
   (k <> join "," (transformKeys ks) ->
      sequenceListeners st' !! k = sequenceListeners st !! k)).
Proof.
  split; cbv zeta; unfold unregisterShortcut; simpl.
  - rewrite removeListeners_record. simpl. split; [|split; [|reflexivity]].
    + intros Hk. now rewrite !deleteAll_in.
    + intros Hk. now rewrite !deleteAll_notin.
  - repeat (split; [reflexivity|]). split.
    + apply lookup_delete_eq.
    + intros Hne. apply lookup_delete_ne. congruence.
Qed.

(** ** Shortcut Registry: registering and unregistering *)

Lemma matches_own tks s : keys s = tks -> matches tks s = true.
Proof. intros E. apply matches_contained. unfold contained. now rewrite E. Qed.

Lemma keep_uncontained tks l :
  (forall s, In s l -> ~ contained tks s) ->
  List.filter (fun s => negb (matches tks s)) l = l.
Proof.
  intros H. apply filter_all. intros s Hs.
  apply negb_true_iff, not_true_iff_false. rewrite matches_contained. now apply H.
Qed.

(** X6. Registering a chord shortcut and unregistering the same key list
    gives back the state one started from, provided the three chord tables
    had no entry for the canonical combinations and no shortcut of the
    snapshot had all its keys among them. *)
Theorem X6_register_unregister_chord now m ks t d hd st :
  absent (transformKeys ks) false st ->
  (forall s, In s (shortcuts st) -> ~ contained (transformKeys ks) s) ->
  unregisterShortcut ks false (registerShortcut now m ks t d hd st) = st.
Proof.
  intros Habs Hold. unfold absent in Habs.
  rewrite registerShortcut_fresh.
  2:{ intros k Hk. destruct (Habs k Hk) as (H1 & H2 & _).
      unfold targetTable. now destruct (holding hd). }
  unfold unregisterShortcut. simpl.
  rewrite addListeners_record, removeListeners_record. unfold set_shortcuts. simpl.
  rewrite List.filter_app, keep_uncontained by exact Hold. simpl.
  rewrite matches_own by reflexivity. simpl. rewrite app_nil_r.
  assert (E1 : forall k, In k (transformKeys ks) -> listeners st !! k = None)
    by (intros k Hk; now destruct (Habs k Hk)).
  assert (E2 : forall k, In k (transformKeys ks) -> holdListeners st !! k = None)
    by (intros k Hk; now destruct (Habs k Hk) as (_ & ? & _)).
  assert (E3 : forall k, In k (transformKeys ks) -> holdDurations st !! k = None)
    by (intros k Hk; now destruct (Habs k Hk) as (_ & _ & ?)).
  destruct (holding hd);
    rewrite ?deleteAll_insertAll, ?deleteAll_absent by assumption;
    now destruct st.
Qed.

Lemma X6_register_unregister_chord_witness :
  let st := registerShortcut 1 7 ["ctrl+s"] "Save" "" None initialState in
  unregisterShortcut ["Cmd+K"; "x"] false
    (registerShortcut 2 8 ["Cmd+K"; "x"] "Open" "" (Some 300%Z) st) = st.
Proof.
  apply X6_register_unregister_chord.
  - intros k [<-|[<-|[]]]; vm_compute; auto.
  - intros s [<-|[]] Hc. specialize (Hc "ctrl+s"). vm_compute in Hc.
    destruct Hc as [Hc|[Hc|[]]]; [tauto | discriminate Hc | discriminate Hc].
Defined.

Lemma canonical_lowerCased k : canonical k -> lowerCased k.
Proof. intros H. rewrite <- H. apply transformCombo_lowerCased. Qed.

Lemma transformKeys_canonical ks : Forall canonical ks -> transformKeys ks = ks.
Proof.
  unfold transformKeys. induction 1 as [|k r Hk _ IH]; simpl; [reflexivity|].
  now rewrite Hk, IH.
Qed.

Lemma map_toLowerCase_canonical ks : Forall canonical ks -> map toLowerCase ks = ks.
Proof.
  induction 1 as [|k r Hk _ IH]; simpl; [reflexivity|].
  now rewrite (canonical_lowerCased k Hk), IH.
Qed.

(** X7. For a sequence whose keys are written canonically, registration
    and unregistration with the sequence flag meet: registering it and
    unregistering the same key list gives back the state one started from,
    provided the sequence table had no entry for it and no shortcut of the
    snapshot had all its keys among the sequence's. *)
Theorem X7_register_unregister_sequence now m ks t d st :
  Forall canonical ks ->
  sequenceListeners st !! join "," ks = None ->
  (forall s, In s (shortcuts st) -> ~ contained ks s) ->
  unregisterShortcut ks true (registerSequenceShortcut now m ks t d st) = st.
Proof.
  intros Hcan Habs Hold.
  assert (Ekey : toLowerCase (join "," ks) = join "," ks).
  { rewrite toLowerCase_join, map_toLowerCase_canonical by exact Hcan. reflexivity. }
  rewrite registerSequenceShortcut_fresh by (rewrite Ekey; exact Habs).
  unfold unregisterShortcut. rewrite transformKeys_canonical by exact Hcan.
  unfold set_shortcuts. simpl.
  rewrite Ekey, delete_insert_id by exact Habs.
  rewrite List.filter_app, keep_uncontained by exact Hold. simpl.
  rewrite matches_own by reflexivity. simpl. rewrite app_nil_r.
  now destruct st.
Qed.

Lemma X7_register_unregister_sequence_witness :
  unregisterShortcut ["g"; "i"] true
    (registerSequenceShortcut 3 9 ["g"; "i"] "Inbox" "" initialState) = initialState.
Proof.
  apply X7_register_unregister_sequence.
  - repeat constructor.
  - reflexivity.
  - intros s [].
Defined.

(** X8. The empty key list. A chord registration with no keys never meets
    a conflict: it adds a shortcut to the snapshot and no routing entry,
    every time it is called. Any call of [unregisterShortcut], whatever its
    keys and flag, removes every shortcut without keys from the snapshot. *)
Theorem X8_empty_key_list :
  (forall now m t d hd st,
     registerShortcut now m [] t d hd st =
     set_shortcuts (shortcuts st ++ [chordShortcut now m [] t d hd])%list st) /\
  (forall ks sequence_ st s,
     keys s = [] -> ~ In s (shortcuts (unregisterShortcut ks sequence_ st))).
Proof.
  split.
  - intros now m t d hd st. now rewrite registerShortcut_fresh by (intros k []).
  - intros ks sequence_ st s Hk Hin.
    rewrite unregisterShortcut_snapshot in Hin. apply filter_In in Hin as [_ Hf].
    unfold matches in Hf. rewrite Hk in Hf. discriminate Hf.
Qed.

(** ** Dispatch Core: what key events do and do not touch *)

Lemma elapse1_fields h :
  sameRegistry (engine h) (engine (elapse1 h)) /\
  keysDown (engine (elapse1 h)) = keysDown (engine h).
Proof.
  unfold elapse1, fireDue, sameRegistry.
  set (tick := match holdInterval (engine h) with
               | Some iv => if (due iv <=? clock h + 1)%N
                            then intervalTick (engine h) else (engine h, [])
               | None => (engine h, [])
               end).
  assert (Ht : (listeners (fst tick) = listeners (engine h) /\
                holdListeners (fst tick) = holdListeners (engine h) /\
                holdDurations (fst tick) = holdDurations (engine h) /\
                sequenceListeners (fst tick) = sequenceListeners (engine h) /\
                shortcuts (fst tick) = shortcuts (engine h)) /\
               keysDown (fst tick) = keysDown (engine h)).
  { unfold tick. destruct (holdInterval (engine h)) as [iv|]; [|simpl; tauto].
    destruct (due iv <=? clock h + 1)%N; [|simpl; tauto].
    pose proof (intervalTick_fields (engine h)) as H. simpl in H. tauto. }
  destruct tick as [st1 fx]. simpl in *.
  destruct (sequenceTimer st1) as [d|]; [destruct (d <=? clock h + 1)%N|]; exact Ht.
Qed.

Lemma elapse_fields n h :
  sameRegistry (engine h) (engine (Nat.iter n elapse1 h)) /\
  keysDown (engine (Nat.iter n elapse1 h)) = keysDown (engine h).
Proof.
  induction n as [|n IH]; simpl; [unfold sameRegistry; tauto|].
  destruct (elapse1_fields (Nat.iter n elapse1 h)) as [(A1&A2&A3&A4&A5) A6].
  destruct IH as [(B1&B2&B3&B4&B5) B6]. unfold sameRegistry.
  rewrite A1, A2, A3, A4, A5, A6. tauto.
Qed.

Lemma keyDown_registry props now e st :
  sameRegistry st (fst (keyDown props now e st)).
Proof.
  unfold sameRegistry. destruct (listening props e st) eqn:Hl.
  - destruct (keyDown_state props now e st Hl) as (_&_&_&_&_&H). exact H.
  - rewrite keyDown_ignored by exact Hl. simpl. tauto.
Qed.

Lemma keyUp_keysDown e st :
  keysDown (keyUp e st) =
  List.filter (fun k => (indexOf (pressedKeys e) k <? 0)%Z) (keysDown st).
Proof.
  unfold keyUp.
  now destruct (resetTimer_fields
                  (set_keysDown
                     (List.filter (fun k => (indexOf (pressedKeys e) k <? 0)%Z)
                        (keysDown st)) st)) as (_ & -> & _).
Qed.

(** X9. Key events and the passage of time never change the registry: the
    four routing tables and the snapshot after any list of key-downs,
    key-ups and waits are those before it. Nor does time release a key: the
    keys recorded as down change only on key events. *)
Theorem X9_dispatch_keeps_registry props acts : forall h,
  Forall dispatchOnly acts ->
  sameRegistry (engine h) (engine (run props h acts)) /\
  (forall n, keysDown (engine (step props h (Elapse n))) = keysDown (engine h)).
Proof.
  intros h Hd. split; [|intros n; apply elapse_fields].
  revert h. unfold run.
  induction Hd as [|a r Ha _ IH]; intros h; simpl; [unfold sameRegistry; tauto|].
  assert (Hs : sameRegistry (engine h) (engine (step props h a))).
  { destruct a; simpl in Ha |- *; try contradiction.
    - destruct (step_keyDown props h e) as (_ & E & _). simpl in E. rewrite E.
      apply keyDown_registry.
    - unfold sameRegistry.
      destruct (keyUp_fields e (engine h)) as (_&_&_&A1&A2&A3&A4&A5). tauto.
    - apply elapse_fields. }
  destruct (IH (step props h a)) as (A1&A2&A3&A4&A5).
  destruct Hs as (B1&B2&B3&B4&B5). unfold sameRegistry.
  rewrite A1, A2, A3, A4, A5. tauto.
Qed.

Lemma X9_dispatch_keeps_registry_witness :
  let e := {| key := "k"; ctrlKey := true; altKey := false; metaKey := false;
              tagName := "DIV" |} in
  let h := run defaultProps boot [RegisterShortcut 7 ["k"] "Hold" "" (Some 300%Z)] in
  holdListeners (engine (run defaultProps h [KeyDown e; Elapse 450; KeyUp e])) =
  holdListeners (engine h).
Proof.
  intros e h.
  destruct (X9_dispatch_keeps_registry defaultProps [KeyDown e; Elapse 450; KeyUp e] h)
    as [(_ & H & _) _]; [repeat constructor | exact H].
Defined.

Lemma ignoreList_iff props x :
  In x (ignoreList props) <->
  x = "input" \/
  exists tags t, ignoreTagNames props = Some tags /\ In t tags /\ x = toLowerCase t.
Proof.
  unfold ignoreList, ignoreForTagNames.
  destruct (ignoreTagNames props) as [tags|].
  - rewrite in_app_iff, in_map_iff. simpl. split.
    + intros [[t [<- Ht]]|[<-|[]]]; [right; eauto | now left].
    + intros [->|(tags' & t & E & Ht & ->)]; [tauto|].
      injection E as <-. left. eauto.
  - simpl. split.
    + intros [<-|[]]. now left.
    + intros [->|(tags' & t & E & _)]; [tauto | discriminate E].
Qed.

(** X10. The ignore list is the default [input] together with the
    [ignoreTagNames] prop, both compared after lower-casing: a key-down
    whose target is an [input] (in any letter case, whatever the prop) or
    one of the prop's tag names (in any letter case) does nothing. *)
Theorem X10_ignored_targets props now e st :
  toLowerCase (tagName e) = "input" \/
  (exists tags t, ignoreTagNames props = Some tags /\ In t tags /\
                  toLowerCase (tagName e) = toLowerCase t) ->
  keyDown props now e st = (st, []).
Proof.
  intros H. apply keyDown_ignored, not_true_iff_false.
  rewrite listening_iff, ignoreList_iff. tauto.
Qed.

Lemma X10_ignored_targets_witness :
  let e := {| key := "k"; ctrlKey := false; altKey := false; metaKey := false;
              tagName := "TextArea" |} in
  keyDown {| ignoreTagNames := Some ["TEXTAREA"] |} 0 e initialState =
  (initialState, []).
Proof.
  apply X10_ignored_targets. right. exists ["TEXTAREA"], "TEXTAREA".
  split; [reflexivity|]. split; [simpl; tauto | reflexivity].
Defined.

(** X11. What one key-down can do. It never invokes a hold handler and
    never throws; it makes at most one instantaneous and at most one
    sequence invocation, the instantaneous one first; and it prevents the
    event's default exactly when it makes the instantaneous invocation (a
    sequence match alone does not). *)
Theorem X11_keyDown_effect_shape props now e st :
  let fx := snd (keyDown props now e st) in
  invocations Hold fx = [] /\ typeErrors fx = [] /\
  preventions fx = length (invocations Instant fx) /\
  (length (invocations Instant fx) <= 1)%nat /\
  (length (invocations Sequence fx) <= 1)%nat /\
  exists fxI fxS, fx = (fxI ++ fxS)%list /\
    invocations Sequence fxI = [] /\ invocations Instant fxS = [] /\
    preventions fxS = 0%nat.
Proof.
  cbv zeta. destruct (listening props e st) eqn:Hl.
  - rewrite keyDown_effects by exact Hl.
    set (fxI := match listeners st !! _ with Some _ => _ | None => _ end).
    set (fxS := match sequenceListeners st !! _ with Some _ => _ | None => _ end).
    assert (HI : invocations Hold fxI = [] /\ typeErrors fxI = [] /\
                 preventions fxI = length (invocations Instant fxI) /\
                 (length (invocations Instant fxI) <= 1)%nat /\
                 invocations Sequence fxI = [])
      by (unfold fxI; destruct (listeners st !! _); simpl; repeat split; lia).
    assert (HS : invocations Hold fxS = [] /\ typeErrors fxS = [] /\
                 preventions fxS = 0%nat /\ invocations Instant fxS = [] /\
                 (length (invocations Sequence fxS) <= 1)%nat)
      by (unfold fxS; destruct (sequenceListeners st !! _); simpl; repeat split; lia).
    destruct HI as (I1 & I2 & I3 & I4 & I5). destruct HS as (S1 & S2 & S3 & S4 & S5).
    rewrite !invocations_app, preventions_app. unfold typeErrors in *.
    rewrite flat_map_app, I1, I2, I5, S1, S2, S3, S4, I3. simpl.
    rewrite app_nil_r, Nat.add_0_r.
    repeat (split; [first [reflexivity | assumption]|]).
    exists fxI, fxS. auto.
  - rewrite keyDown_ignored by exact Hl. simpl.
    repeat (split; [first [reflexivity | lia]|]). exists [], []. auto.
Qed.

(** X12. Auto-repeat ends with the key-up. After a key-down that invoked
    an instantaneous handler, a second key-down of the same event is
    ignored while the key is held, and invokes the handler again once the
    key-up of that event has been handled. *)
Theorem X12_release_rearms_key props now1 now2 e st h :
  listening props e st = true ->
  listeners st !! join "+" (pressedKeys e) = Some h ->
  let st1 := fst (keyDown props now1 e st) in
  keyDown props now2 e st1 = (st1, []) /\
  invocations Instant (snd (keyDown props now2 e (keyUp e st1))) =
    [(join "+" (pressedKeys e), h)].
Proof.
  intros Hl Hh st1.
  destruct (keyDown_state props now1 e st Hl) as (Hkd & _ & _ & _ & _ & Hls & _).
  fold st1 in Hkd, Hls.
  apply listening_iff in Hl as [Htag Hkey]. split.
  - apply keyDown_ignored, not_true_iff_false. rewrite listening_iff, Hkd.
    intros [_ Hn]. apply Hn, in_app_iff. right. apply pressedKeys_last.
  - assert (Hl2 : listening props e (keyUp e st1) = true).
    { apply listening_iff. split; [exact Htag|].
      rewrite keyUp_keysDown. intros Hin. apply filter_In in Hin as [_ Hf].
      apply indexOf_missing in Hf. apply Hf, pressedKeys_last. }
    rewrite keyDown_effects by exact Hl2.
    destruct (keyUp_fields e st1) as (_ & _ & _ & -> & _).
    rewrite Hls, Hh, invocations_app. simpl.
    now destruct (sequenceListeners (keyUp e st1) !! _).
Qed.

Lemma X12_release_rearms_key_witness :
  let e := {| key := "s"; ctrlKey := true; altKey := false; metaKey := false;
              tagName := "DIV" |} in
  let st := registerShortcut 1 7 ["ctrl+s"] "Save" "" None initialState in
  let st1 := fst (keyDown defaultProps 10 e st) in
  keyDown defaultProps 20 e st1 = (st1, []) /\
  invocations Instant (snd (keyDown defaultProps 20 e (keyUp e st1))) =
    [(join "+" (pressedKeys e), 7%nat)].
Proof.
  intros e st.
  exact (X12_release_rearms_key defaultProps 10 20 e st 7%nat eq_refl eq_refl).
Defined.

Lemma listening_keysDown props e st st' :
  keysDown st' = keysDown st -> listening props e st' = listening props e st.
Proof. unfold listening. now intros ->. Qed.

(** X13. Registration, dispatch and unregistration compose: once a fresh
    instantaneous shortcut is registered, a key-down carrying its
    canonical combination invokes its handler, and after the shortcut is
    unregistered the same key-down invokes no instantaneous handler. *)
Theorem X13_register_press_unregister props now0 now e m raw t d st :
  listeners st !! transformCombo raw = None ->
  join "+" (pressedKeys e) = transformCombo raw ->
  listening props e st = true ->
  let st1 := registerShortcut now0 m [raw] t d None st in
  invocations Instant (snd (keyDown props now e st1)) = [(transformCombo raw, m)] /\
  invocations Instant (snd (keyDown props now e (unregisterShortcut [raw] false st1))) = [].
Proof.
  intros Hfresh Hcombo Hl st1.
  assert (E1 : st1 = set_shortcuts (shortcuts st ++ [chordShortcut now0 m [raw] t d None])%list
                       (addListener false 0 m st (transformCombo raw))).
  { unfold st1. rewrite registerShortcut_fresh; [reflexivity|].
    simpl. intros k [<-|[]]. exact Hfresh. }
  split.
  - assert (Hl1 : listening props e st1 = true)
      by (rewrite <- Hl; apply listening_keysDown; now rewrite E1).
    rewrite keyDown_effects by exact Hl1. rewrite Hcombo, invocations_app.
    assert (Hm : listeners st1 !! transformCombo raw = Some m)
      by (rewrite E1; simpl; apply lookup_insert_eq).
    rewrite Hm.
    now destruct (sequenceListeners st1 !! join "," (previousKeys st1 ++ pressedKeys e)).
  - set (st2 := unregisterShortcut [raw] false st1).
    assert (Hl2 : listening props e st2 = true).
    { rewrite <- Hl. apply listening_keysDown. unfold st2. now rewrite E1. }
    rewrite keyDown_effects by exact Hl2. rewrite Hcombo, invocations_app.
    assert (Hm : listeners st2 !! transformCombo raw = None)
      by (unfold st2, unregisterShortcut; simpl; apply lookup_delete_eq).
    rewrite Hm.
    now destruct (sequenceListeners st2 !! join "," (previousKeys st2 ++ pressedKeys e)).
Qed.

Lemma X13_register_press_unregister_witness :
  let e := {| key := "K"; ctrlKey := false; altKey := false; metaKey := true;
              tagName := "DIV" |} in
  let st1 := registerShortcut 1 7 ["Cmd+K"] "Open" "" None initialState in
  invocations Instant (snd (keyDown defaultProps 5 e st1)) = [("meta+k", 7%nat)] /\
  invocations Instant
    (snd (keyDown defaultProps 5 e (unregisterShortcut ["Cmd+K"] false st1))) = [].
Proof.
  intros e.
  exact (X13_register_press_unregister defaultProps 1 5 e 7%nat "Cmd+K" "Open" ""
           initialState eq_refl eq_refl eq_refl).
Defined.

(** ** Hold Timer: one millisecond at a time *)

Lemma elapse1_clock h : clock (elapse1 h) = (clock h + 1)%N.
Proof. unfold elapse1. now destruct (fireDue _ _). Qed.

(** Before the interval is due nothing happens to the hold timer. *)
Lemma elapse1_before_due h iv :
  holdInterval (engine h) = Some iv -> (clock h + 1 < due iv)%N ->
  holdInterval (engine (elapse1 h)) = Some iv /\
  holdTimer (engine (elapse1 h)) = holdTimer (engine h) /\
  trace (elapse1 h) = trace h.
Proof.
  intros Hiv Hlt. unfold elapse1, fireDue. rewrite Hiv.
  destruct (N.leb_spec (due iv) (clock h + 1)); [lia|].
  destruct (sequenceTimer (engine h)) as [d|];
    [destruct (d <=? clock h + 1)%N|]; simpl; rewrite app_nil_r; auto.
Qed.

(** A tick at which no captured key has reached its duration: the counter
    grows by 100 and the interval is due 100ms later. *)
Lemma elapse1_tick_unreached h iv :
  holdInterval (engine h) = Some iv -> (due iv <= clock h + 1)%N ->
  (forall k, In k (heldKeys iv) ->
     reached (holdTimer (engine h)) (holdDurations (engine h) !! k) = false) ->
  holdInterval (engine (elapse1 h)) =
    Some {| due := due iv + 100; heldKeys := heldKeys iv;
            keyPress := keyPress iv; event := event iv |} /\
  holdTimer (engine (elapse1 h)) = (holdTimer (engine h) + 100)%Z /\
  trace (elapse1 h) = trace h.
Proof.
  intros Hiv Hdue Hun. unfold elapse1, fireDue. rewrite Hiv.
  destruct (N.leb_spec (due iv) (clock h + 1)); [|lia].
  unfold intervalTick. rewrite Hiv, holdCallback_unreached by exact Hun.
  destruct (sequenceTimer _) as [d|];
    [destruct (d <=? clock h + 1)%N|]; simpl; rewrite app_nil_r; auto.
Qed.

(** A tick at which the one captured key has reached its duration: the
    handler of the captured combination is invoked, the interval is
    cleared, and the counter is left at 100. *)
Lemma elapse1_tick_fire h iv k m :
  holdInterval (engine h) = Some iv -> (due iv <= clock h + 1)%N ->
  heldKeys iv = [k] ->
  reached (holdTimer (engine h)) (holdDurations (engine h) !! k) = true ->
  holdListeners (engine h) !! keyPress iv = Some m ->
  holdInterval (engine (elapse1 h)) = None /\
  holdTimer (engine (elapse1 h)) = 100%Z /\
  trace (elapse1 h) = (trace h ++ [Invoke Hold (keyPress iv) m (event iv)])%list.
Proof.
  intros Hiv Hdue Hk Hr Hm. unfold elapse1, fireDue. rewrite Hiv.
  destruct (N.leb_spec (due iv) (clock h + 1)); [|lia].
  unfold intervalTick. rewrite Hiv, Hk. cbn [holdCallback].
  change (holdTimer (set_holdInterval _ (engine h))) with (holdTimer (engine h)).
  change (holdDurations (set_holdInterval _ (engine h))) with (holdDurations (engine h)).
  change (holdListeners (set_holdInterval _ (engine h))) with (holdListeners (engine h)).
  rewrite Hr, Hm.
  destruct (sequenceTimer _) as [d|];
    [destruct (d <=? clock h + 1)%N|]; simpl; auto.
Qed.

Lemma counting_quiet t0 c0 k e d m tr j r h :
  counting t0 c0 k e d m tr j r h -> (r + 1 < 100)%nat ->
  counting t0 c0 k e d m tr j (r + 1) (elapse1 h).
Proof.
  intros (Hc & Hiv & Ht & Hd & Hm & Htr) Hr.
  destruct (elapse1_before_due h _ Hiv) as (Hiv' & Ht' & Htr'); [simpl; lia|].
  destruct (elapse1_fields h) as [(_ & Hl & Hdur & _) _].
  unfold counting. rewrite elapse1_clock, Hiv', Ht', Htr', Hl, Hdur, Hc.
  repeat split; try assumption. lia.
Qed.

Lemma counting_tick t0 c0 k e d m tr j h :
  counting t0 c0 k e d m tr j 99 h -> (c0 + 100 * Z.of_nat j < d)%Z ->
  counting t0 c0 k e d m tr (j + 1) 0 (elapse1 h).
Proof.
  intros (Hc & Hiv & Ht & Hd & Hm & Htr) Hlt.
  destruct (elapse1_tick_unreached h _ Hiv) as (Hiv' & Ht' & Htr').
  - simpl. lia.
  - simpl. intros k' [<-|[]]. rewrite Hd, Ht. simpl. apply Z.leb_gt. lia.
  - destruct (elapse1_fields h) as [(_ & Hl & Hdur & _) _].
    unfold counting. rewrite elapse1_clock, Hiv', Ht', Htr', Hl, Hdur, Hc, Ht.
    cbn [due heldKeys keyPress event].
    repeat split; try assumption; try lia.
    do 2 f_equal. lia.
Qed.

Lemma counting_fire t0 c0 k e d m tr j h :
  counting t0 c0 k e d m tr j 99 h -> (d <= c0 + 100 * Z.of_nat j)%Z ->
  holdInterval (engine (elapse1 h)) = None /\
  holdTimer (engine (elapse1 h)) = 100%Z /\
  trace (elapse1 h) = (tr ++ [Invoke Hold k m e])%list.
Proof.
  intros (Hc & Hiv & Ht & Hd & Hm & Htr) Hge.
  destruct (elapse1_tick_fire h _ k m Hiv) as (A & B & C).
  - simpl. lia.
  - reflexivity.
  - rewrite Hd, Ht. simpl. apply Z.leb_le. lia.
  - exact Hm.
  - rewrite Htr in C. auto.
Qed.

(** The state right after the key-down of a bare key that has a hold
    duration and a hold handler. *)
Lemma counting_start props h0 e d m :
  bare e -> listening props e (engine h0) = true ->
  holdDurations (engine h0) !! toLowerCase (key e) = Some d ->
  holdListeners (engine h0) !! toLowerCase (key e) = Some m ->
  counting (clock h0)
    (match holdInterval (engine h0) with Some _ => 0%Z | None => holdTimer (engine h0) end)
    (toLowerCase (key e)) e d m (trace (step props h0 (KeyDown e))) 0 0
    (step props h0 (KeyDown e)).
Proof.
  intros Hb Hl Hd Hm.
  destruct (step_keyDown props h0 e) as (Hc & He & _).
  destruct (keyDown_state props (clock h0) e (engine h0) Hl)
    as (_ & _ & _ & Hiv & Ht & _ & Hhl & Hhd & _).
  cbv zeta in Hiv, Ht, Hhl, Hhd. rewrite <- He in Hiv, Ht, Hhl, Hhd.
  rewrite (pressedKeys_bare e Hb) in Hiv. cbn [join] in Hiv.
  unfold counting. rewrite Hc, Hiv, Ht, Hhl, Hhd.
  repeat split; try assumption; try lia.
Qed.

Lemma counting_reach t0 c0 k e d m tr c h1 :
  counting t0 c0 k e d m tr 0 0 h1 ->
  (forall j, (j < c)%nat -> (c0 + 100 * Z.of_nat j < d)%Z) ->
  forall n j r, n = (100 * j + r)%nat -> (r < 100)%nat -> (j <= c)%nat ->
  counting t0 c0 k e d m tr j r (Nat.iter n elapse1 h1).
Proof.
  intros H0 Hmin. induction n as [|n IH]; intros j r En Hr Hj.
  - assert (j = 0%nat) by lia. assert (r = 0%nat) by lia. subst. exact H0.
  - cbn [Nat.iter]. destruct r as [|r'].
    + destruct j as [|j']; [lia|].
      replace (S j') with (j' + 1)%nat by lia.
      apply counting_tick; [apply IH; lia | apply Hmin; lia].
    + replace (S r') with (r' + 1)%nat by lia.
      apply counting_quiet; [apply IH; lia | lia].
Qed.

(** Holding a bare key: the first tick (the [c]-th after the first, so
    [100 * (c + 1)] milliseconds after the key-down) at which the counter,
    started at [c0] and grown by 100 per earlier tick, has reached the
    duration invokes the handler; nothing is invoked before, and nothing
    after, the interval being cleared. *)
Lemma hold_fires_at props h0 e d m c n :
  bare e -> listening props e (engine h0) = true ->
  holdDurations (engine h0) !! toLowerCase (key e) = Some d ->
  holdListeners (engine h0) !! toLowerCase (key e) = Some m ->
  let c0 := match holdInterval (engine h0) with
            | Some _ => 0%Z | None => holdTimer (engine h0) end in
  (d <= c0 + 100 * Z.of_nat c)%Z ->
  (forall j, (j < c)%nat -> (c0 + 100 * Z.of_nat j < d)%Z) ->
  let h1 := step props h0 (KeyDown e) in
  trace (Nat.iter n elapse1 h1) =
    (trace h1 ++ if (n <? 100 * (c + 1))%nat then []
                 else [Invoke Hold (toLowerCase (key e)) m e])%list /\
  ((100 * (c + 1) <= n)%nat -> holdInterval (engine (Nat.iter n elapse1 h1)) = None).
Proof.
  intros Hb Hl Hd Hm c0 Hge Hmin h1.
  pose proof (counting_start props h0 e d m Hb Hl Hd Hm) as H0.
  fold c0 h1 in H0.
  pose proof (counting_reach _ _ _ _ _ _ _ c h1 H0 Hmin) as Hreach.
  destruct (Nat.ltb_spec n (100 * (c + 1))) as [Hlt|Hn].
  - split; [|lia]. rewrite app_nil_r.
    pose proof (Nat.div_mod_eq n 100) as Hdm.
    pose proof (Nat.mod_upper_bound n 100 ltac:(lia)) as Hmod.
    destruct (Hreach n (n / 100)%nat (n mod 100)%nat Hdm Hmod ltac:(lia))
      as (_ & _ & _ & _ & _ & Htr). exact Htr.
  - pose proof (Hreach (100 * c + 99)%nat c 99%nat eq_refl ltac:(lia) ltac:(lia)) as Hc.
    destruct (counting_fire _ _ _ _ _ _ _ _ _ Hc Hge) as (Hnone & _ & Htr).
    assert (E : Nat.iter n elapse1 h1 =
                Nat.iter (n - 100 * (c + 1)) elapse1
                  (elapse1 (Nat.iter (100 * c + 99) elapse1 h1))).
    { change (elapse1 (Nat.iter (100 * c + 99) elapse1 h1))
        with (Nat.iter (S (100 * c + 99)) elapse1 h1).
      rewrite <- Nat.iter_add. f_equal. lia. }
    destruct (cleared_elapse (n - 100 * (c + 1)) _ Hnone) as [Hnone' Htr'].
    rewrite E, Htr', Htr. split; [reflexivity | intros _; exact Hnone'].
Qed.

(** X14. Holding a bare key that has a hold duration [d] and a hold
    handler. The handler is invoked exactly once, at the first tick whose
    counter reading has reached [d]: the counter starts at 0 (or at the
    value left over when no interval was live) and a tick reads it before
    adding 100, so this is tick [c + 1], [100 * (c + 1)] milliseconds after
    the key-down, for the least [c] with [c0 + 100 * c >= d]. The handler is
    not invoked again while the key stays down. *)
Theorem X14_hold_fires_once props h0 e d m c :
  bare e -> listening props e (engine h0) = true ->
  holdDurations (engine h0) !! toLowerCase (key e) = Some d ->
  holdListeners (engine h0) !! toLowerCase (key e) = Some m ->
  let c0 := match holdInterval (engine h0) with
            | Some _ => 0%Z | None => holdTimer (engine h0) end in
  (d <= c0 + 100 * Z.of_nat c)%Z ->
  (forall j, (j < c)%nat -> (c0 + 100 * Z.of_nat j < d)%Z) ->
  let h1 := step props h0 (KeyDown e) in
  forall n,
    trace (step props h1 (Elapse n)) =
    (trace h1 ++ if (n <? 100 * (c + 1))%nat then []
                 else [Invoke Hold (toLowerCase (key e)) m e])%list.
Proof.
  intros Hb Hl Hd Hm c0 Hge Hmin h1 n.
  apply (hold_fires_at props h0 e d m c n Hb Hl Hd Hm Hge Hmin).
Qed.

Lemma X14_hold_fires_once_witness :
  let e := {| key := "k"; ctrlKey := false; altKey := false; metaKey := false;
              tagName := "DIV" |} in
  let h0 := run defaultProps boot [RegisterShortcut 7 ["k"] "Hold" "" (Some 250%Z)] in
  let h1 := step defaultProps h0 (KeyDown e) in
  trace (step defaultProps h1 (Elapse 399)) = (trace h1 ++ [])%list /\
  trace (step defaultProps h1 (Elapse 1000)) =
    (trace h1 ++ [Invoke Hold (toLowerCase (key e)) 7%nat e])%list.
Proof.
  intros e h0 h1.
  assert (Hb : bare e) by (repeat split).
  assert (Hge : (250 <= match holdInterval (engine h0) with
                        | Some _ => 0 | None => holdTimer (engine h0) end
                        + 100 * Z.of_nat 3)%Z) by (vm_compute; discriminate).
  assert (Hmin : forall j, (j < 3)%nat ->
                 (match holdInterval (engine h0) with
                  | Some _ => 0 | None => holdTimer (engine h0) end
                  + 100 * Z.of_nat j < 250)%Z).
  { intros j Hj. change (0 + 100 * Z.of_nat j < 250)%Z. lia. }
  split.
  - exact (X14_hold_fires_once defaultProps h0 e 250%Z 7%nat 3%nat
             Hb eq_refl eq_refl eq_refl Hge Hmin 399%nat).
  - exact (X14_hold_fires_once defaultProps h0 e 250%Z 7%nat 3%nat
             Hb eq_refl eq_refl eq_refl Hge Hmin 1000%nat).
Defined.

(** ** Invariants of reachable states *)

Lemma run_snoc props h acts a :
  run props h (acts ++ [a]) = step props (run props h acts) a.
Proof. unfold run. now rewrite fold_left_app. Qed.

(** An invariant of the engine: true of the initial state and kept by
    every action. *)
Lemma reachable_invariant props (P : State -> Prop) :
  P initialState ->
  (forall h a, P (engine h) -> P (engine (step props h a))) ->
  forall h, reachable props h -> P (engine h).
Proof.
  intros Hinit Hstep h [acts <-].
  induction acts as [|a acts IH] using rev_ind; [exact Hinit|].
  rewrite run_snoc. now apply Hstep.
Qed.

(** Registration and unregistration leave the timers, the key state and
    the sequence buffer alone. *)
Lemma registerShortcut_frame now m ks t d hd st :
  let st' := registerShortcut now m ks t d hd st in
  holdInterval st' = holdInterval st /\ holdTimer st' = holdTimer st /\
  keysDown st' = keysDown st /\ previousKeys st' = previousKeys st /\
  sequenceTimer st' = sequenceTimer st.
Proof.
  cbv zeta. unfold registerShortcut. destruct (negb _); [|tauto].
  rewrite addListeners_record. simpl. tauto.
Qed.

Lemma registerSequenceShortcut_frame now m ks t d st :
  let st' := registerSequenceShortcut now m ks t d st in
  holdInterval st' = holdInterval st /\ holdTimer st' = holdTimer st /\
  keysDown st' = keysDown st /\ previousKeys st' = previousKeys st /\
  sequenceTimer st' = sequenceTimer st.
Proof.
  cbv zeta. unfold registerSequenceShortcut. destruct (negb _); simpl; tauto.
Qed.

Lemma unregisterShortcut_frame ks sequence_ st :
  let st' := unregisterShortcut ks sequence_ st in
  holdInterval st' = holdInterval st /\ holdTimer st' = holdTimer st /\
  keysDown st' = keysDown st /\ previousKeys st' = previousKeys st /\
  sequenceTimer st' = sequenceTimer st.
Proof.
  cbv zeta. unfold unregisterShortcut. destruct sequence_; simpl; [tauto|].
  rewrite removeListeners_record. simpl. tauto.
Qed.

Lemma resetTimer_timerZeroed st : timerZeroed st -> timerZeroed (resetTimer st).
Proof.
  unfold timerZeroed, resetTimer. destruct (holdInterval st) eqn:E; simpl; auto.
Qed.

Lemma holdCallback_timerZeroed ks combo e : forall st,
  timerZeroed st -> timerZeroed (fst (fst (holdCallback ks combo e st))).
Proof.
  induction ks as [|k r IH]; intros st Hz; simpl; [exact Hz|].
  destruct (reached _ _); [|now apply IH].
  destruct (holdListeners st !! combo); [|exact Hz].
  specialize (IH (resetTimer st) (resetTimer_timerZeroed st Hz)).
  now destruct (holdCallback r combo e (resetTimer st)) as [[st1 fx] c].
Qed.

Lemma intervalTick_timerIdle st : timerIdle st -> timerIdle (fst (intervalTick st)).
Proof.
  intros Hi. unfold intervalTick. destruct (holdInterval st) as [iv|] eqn:E;
    [|exact Hi].
  pose proof (holdCallback_timerZeroed (heldKeys iv) (keyPress iv) (event iv)
                (set_holdInterval
                   (Some {| due := due iv + 100; heldKeys := heldKeys iv;
                            keyPress := keyPress iv; event := event iv |}) st)) as H.
  destruct (holdCallback _ _ _ _) as [[st1 fx] c]. simpl in H.
  assert (Hz : timerZeroed st1) by (apply H; intros Hn; discriminate Hn).
  unfold timerIdle, timerZeroed in *. destruct c; simpl.
  - intros Hn. right. rewrite (Hz Hn). reflexivity.
  - intros Hn. left. exact (Hz Hn).
Qed.

Lemma elapse1_timerIdle h : timerIdle (engine h) -> timerIdle (engine (elapse1 h)).
Proof.
  intros Hi. unfold elapse1, fireDue.
  set (tick := match holdInterval (engine h) with
               | Some iv => if (due iv <=? clock h + 1)%N
                            then intervalTick (engine h) else (engine h, [])
               | None => (engine h, [])
               end).
  assert (Ht : timerIdle (fst tick)).
  { unfold tick. destruct (holdInterval (engine h)) as [iv|]; [|exact Hi].
    destruct (due iv <=? clock h + 1)%N; [|exact Hi].
    now apply intervalTick_timerIdle. }
  destruct tick as [st1 fx]. simpl in *.
  destruct (sequenceTimer st1) as [d|]; [destruct (d <=? clock h + 1)%N|]; exact Ht.
Qed.

Lemma step_timerIdle props h a :
  timerIdle (engine h) -> timerIdle (engine (step props h a)).
Proof.
  intros Hi. destruct a; simpl.
  - destruct (step_keyDown props h e) as (_ & E & _). simpl in E. rewrite E.
    destruct (listening props e (engine h)) eqn:Hl.
    + destruct (keyDown_state props (clock h) e (engine h) Hl) as (_&_&_&Hiv&_).
      unfold timerIdle. rewrite Hiv. discriminate.
    + now rewrite keyDown_ignored.
  - unfold keyUp, timerIdle, resetTimer. simpl.
    destruct (holdInterval (engine h)) eqn:E; simpl; [auto|].
    rewrite E. intros _. exact (Hi E).
  - induction ms as [|n IH]; [exact Hi|]. simpl. now apply elapse1_timerIdle.
  - destruct (registerShortcut_frame (clock h) m ks title_ description_ holdDuration_
                (engine h)) as (A & B & _).
    unfold timerIdle. rewrite A, B. exact Hi.
  - destruct (registerSequenceShortcut_frame (clock h) m ks title_ description_
                (engine h)) as (A & B & _).
    unfold timerIdle. rewrite A, B. exact Hi.
  - destruct (unregisterShortcut_frame ks sequence_ (engine h)) as (A & B & _).
    unfold timerIdle. rewrite A, B. exact Hi.
Qed.

(** X15. In every reachable state with no hold interval live, the hold
    counter reads 0 or 100: a key-up or a fresh key-down zeroes it, and a
    tick that has invoked a hold handler leaves it at 100 (the interval is
    cleared and the counter zeroed inside the callback, and 100 is added
    after the callback returns). *)
Theorem X15_idle_counter props h :
  reachable props h -> timerIdle (engine h).
Proof.
  apply (reachable_invariant props timerIdle).
  - intros _. now left.
  - intros h' a. apply step_timerIdle.
Qed.

Lemma X15_idle_counter_witness :
  let e := {| key := "k"; ctrlKey := false; altKey := false; metaKey := false;
              tagName := "DIV" |} in
  holdTimer (engine (run defaultProps boot
                       [RegisterShortcut 7 ["k"] "Hold" "" (Some 300%Z);
                        KeyDown e; Elapse 450; KeyUp e])) = 100%Z.
Proof.
  intros e.
  destruct (X15_idle_counter defaultProps
              (run defaultProps boot
                 [RegisterShortcut 7 ["k"] "Hold" "" (Some 300%Z);
                  KeyDown e; Elapse 450; KeyUp e])) as [H|H].
  - eexists. reflexivity.
  - reflexivity.
  - vm_compute in H. discriminate H.
  - exact H.
Defined.

(** X16. In every reachable state, holding a bare key that has a hold
    handler and a duration [d >= 0] invokes the handler exactly once, at a
    tick [T] milliseconds after the key-down with [d <= T < d + 200]: never
    before the duration has passed, and less than two ticks late. *)
Theorem X16_hold_delay_bounds props h0 e d m :
  reachable props h0 ->
  bare e -> listening props e (engine h0) = true ->
  holdDurations (engine h0) !! toLowerCase (key e) = Some d ->
  holdListeners (engine h0) !! toLowerCase (key e) = Some m ->
  (0 <= d)%Z ->
  let h1 := step props h0 (KeyDown e) in
  exists T : nat,
    (d <= Z.of_nat T < d + 200)%Z /\ (exists i, T = (100 * i)%nat) /\
    forall n,
      trace (step props h1 (Elapse n)) =
      (trace h1 ++ if (n <? T)%nat then []
                   else [Invoke Hold (toLowerCase (key e)) m e])%list.
Proof.
  intros Hreach Hb Hl Hd Hm Hpos h1.
  pose proof (reachable_invariant props timerIdle
                (fun _ => or_introl eq_refl)
                (fun h' a => step_timerIdle props h' a) h0 Hreach) as Hidle.
  set (c0 := match holdInterval (engine h0) with
             | Some _ => 0%Z | None => holdTimer (engine h0) end).
  assert (Hc0 : c0 = 0%Z \/ c0 = 100%Z).
  { unfold c0. destruct (holdInterval (engine h0)) eqn:E; [now left|].
    exact (Hidle E). }
  pose proof (Z.div_mod (d - c0 + 99) 100 ltac:(lia)) as Hdm.
  pose proof (Z.mod_pos_bound (d - c0 + 99) 100 ltac:(lia)) as Hmod.
  set (q := ((d - c0 + 99) / 100)%Z) in *.
  set (c := Z.to_nat q).
  assert (Hge : (d <= c0 + 100 * Z.of_nat c)%Z) by (unfold c; lia).
  assert (Hmin : forall j, (j < c)%nat -> (c0 + 100 * Z.of_nat j < d)%Z)
    by (unfold c; intros j Hj; lia).
  exists (100 * (c + 1))%nat. split; [|split].
  - destruct c as [|c'] eqn:Ec.
    + lia.
    + specialize (Hmin c' ltac:(lia)). lia.
  - now exists (c + 1)%nat.
  - intros n.
    apply (hold_fires_at props h0 e d m c n Hb Hl Hd Hm Hge Hmin).
Qed.

Lemma X16_hold_delay_bounds_witness :
  let e := {| key := "k"; ctrlKey := false; altKey := false; metaKey := false;
              tagName := "DIV" |} in
  let h0 := run defaultProps boot [RegisterShortcut 7 ["k"] "Hold" "" (Some 250%Z)] in
  let h1 := step defaultProps h0 (KeyDown e) in
  exists T : nat,
    (250 <= Z.of_nat T < 250 + 200)%Z /\ (exists i, T = (100 * i)%nat) /\
    forall n,
      trace (step defaultProps h1 (Elapse n)) =
      (trace h1 ++ if (n <? T)%nat then []
                   else [Invoke Hold (toLowerCase (key e)) 7%nat e])%list.
Proof.
  intros e h0.
  apply (X16_hold_delay_bounds defaultProps h0 e 250%Z 7%nat).
  - eexists. reflexivity.
  - repeat split.
  - reflexivity.
  - reflexivity.
  - reflexivity.
  - lia.
Defined.

Lemma step_quiet props h a :
  noKeyDown a -> holdInterval (engine h) = None ->
  holdInterval (engine (step props h a)) = None /\ trace (step props h a) = trace h.
Proof.
  intros Ha Hn. destruct a; simpl in Ha; try contradiction;
    unfold step, on_engine; cbn [engine trace].
  - split; [|reflexivity]. now destruct (keyUp_fields e (engine h)).
  - now apply cleared_elapse.
  - split; [|reflexivity].
    now destruct (registerShortcut_frame (clock h) m ks title_ description_
                    holdDuration_ (engine h)) as (-> & _).
  - split; [|reflexivity].
    now destruct (registerSequenceShortcut_frame (clock h) m ks title_ description_
                    (engine h)) as (-> & _).
  - split; [|reflexivity].
    now destruct (unregisterShortcut_frame ks sequence_ (engine h)) as (-> & _).
Qed.

(** X17. A key-up stops the hold timer whatever keys remain down: after
    it, and until the next key-down, no handler is invoked and nothing is
    thrown, however much time passes and whatever is registered or
    unregistered meanwhile. *)
Theorem X17_keyUp_silences_hold props e acts : forall h,
  Forall noKeyDown acts ->
  trace (run props (step props h (KeyUp e)) acts) = trace h /\
  holdInterval (engine (run props (step props h (KeyUp e)) acts)) = None.
Proof.
  intros h Hq.
  assert (Hgen : forall h', holdInterval (engine h') = None ->
            trace (run props h' acts) = trace h' /\
            holdInterval (engine (run props h' acts)) = None).
  { unfold run. induction Hq as [|a r Ha _ IH]; intros h' Hn; simpl; [auto|].
    destruct (step_quiet props h' a Ha Hn) as [Hn' Ht'].
    destruct (IH _ Hn') as [A B]. split; [congruence | exact B]. }
  destruct (Hgen (step props h (KeyUp e))) as [A B].
  - simpl. now destruct (keyUp_fields e (engine h)).
  - split; [rewrite A; reflexivity | exact B].
Qed.

Lemma X17_keyUp_silences_hold_witness :
  let e := {| key := "k"; ctrlKey := false; altKey := false; metaKey := false;
              tagName := "DIV" |} in
  let h := run defaultProps boot
             [RegisterShortcut 7 ["k"] "Hold" "" (Some 300%Z); KeyDown e; Elapse 350] in
  trace (run defaultProps (step defaultProps h (KeyUp e)) [Elapse 5000]) = trace h.
Proof.
  intros e h.
  apply (X17_keyUp_silences_hold defaultProps e [Elapse 5000] h).
  repeat constructor.
Defined.

(** ** Sequence Tracker: the buffer *)

(** X18. After a key-down the sequence buffer holds what it held before
    followed by the keys of the event; releases and waits leave it so
    until 2000ms have passed since the key-down, and from then on it is
    empty. *)
Theorem X18_buffer_expiry props h e gap :
  listening props e (engine h) = true ->
  Forall idle gap ->
  let h1 := step props h (KeyDown e) in
  previousKeys (engine (run props h1 gap)) =
  if (duration gap <? 2000)%nat
  then (previousKeys (engine h) ++ pressedKeys e)%list
  else [].
Proof.
  intros Hl Hidle h1.
  destruct (step_keyDown props h e) as (C1 & E1 & _). fold h1 in C1, E1.
  destruct (keyDown_state props (clock h) e (engine h) Hl)
    as (_ & P1 & T1 & _ & _ & _ & _ & _ & S1 & _).
  cbv zeta in P1, T1, S1. rewrite <- E1 in P1, T1, S1.
  assert (Htr : tracking (clock h) (previousKeys (engine h) ++ pressedKeys e)%list
                  (sequenceListeners (engine h)) (run props h1 gap) (duration gap)).
  { apply (tracking_run props _ _ _ gap h1 0%nat Hidle).
    unfold tracking. simpl. rewrite C1, P1, T1, S1. split; [lia|]. auto. }
  destruct Htr as (_ & _ & B).
  now destruct (duration gap <? 2000)%nat; destruct B.
Qed.

Lemma X18_buffer_expiry_witness :
  let e := {| key := "g"; ctrlKey := true; altKey := false; metaKey := false;
              tagName := "DIV" |} in
  previousKeys (engine (run defaultProps (step defaultProps boot (KeyDown e))
                          [Elapse 1999; KeyUp e])) = ["ctrl"; "g"] /\
  previousKeys (engine (run defaultProps (step defaultProps boot (KeyDown e))
                          [Elapse 1999; KeyUp e; Elapse 1])) = [].
Proof.
  intros e. split.
  - exact (X18_buffer_expiry defaultProps boot e [Elapse 1999; KeyUp e] eq_refl
             ltac:(repeat constructor)).
  - exact (X18_buffer_expiry defaultProps boot e [Elapse 1999; KeyUp e; Elapse 1]
             eq_refl ltac:(repeat constructor)).
Defined.

Lemma run_app props h acts1 acts2 :
  run props h (acts1 ++ acts2) = run props (run props h acts1) acts2.
Proof. unfold run. apply fold_left_app. Qed.

(** Typing one bare key with nothing held: the key joins the buffer, and
    is no longer down afterwards. *)
Lemma typed_key props gap e h :
  (gap < 2000)%nat -> bare e ->
  ~ In (toLowerCase (tagName e)) (ignoreList props) ->
  keysDown (engine h) = [] ->
  let h' := run props h (typed gap e) in
  keysDown (engine h') = [] /\
  previousKeys (engine h') = (previousKeys (engine h) ++ [toLowerCase (key e)])%list /\
  sequenceListeners (engine h') = sequenceListeners (engine h).
Proof.
  intros Hgap Hb Htag Hkd h'.
  assert (Hl : listening props e (engine h) = true)
    by (apply listening_iff; rewrite Hkd; tauto).
  destruct (step_keyDown props h e) as (C1 & E1 & _).
  destruct (keyDown_state props (clock h) e (engine h) Hl)
    as (K1 & P1 & T1 & _ & _ & _ & _ & _ & S1 & _).
  cbv zeta in K1, P1, T1, S1. rewrite <- E1 in K1, P1, T1, S1.
  unfold h', typed, run. cbn [fold_left].
  remember (step props h (KeyDown e)) as h1 eqn:Eh1.
  assert (Htrack : tracking (clock h) (previousKeys (engine h) ++ pressedKeys e)%list
                     (sequenceListeners (engine h))
                     (run props h1 [KeyUp e; Elapse gap]) (0 + duration [KeyUp e; Elapse gap])).
  { apply tracking_run; [repeat constructor|].
    unfold tracking. rewrite C1, P1, T1, S1. simpl. split; [lia|]. auto. }
  unfold run in Htrack. cbn [fold_left duration] in Htrack.
  destruct Htrack as (_ & S & B).
  replace (0 + (gap + 0))%nat with gap in B by lia.
  destruct (Nat.ltb_spec gap 2000); [|lia]. destruct B as [B _].
  rewrite (pressedKeys_bare e Hb) in B, K1.
  split; [|split; [exact B | exact S]].
  change (step props (step props h1 (KeyUp e)) (Elapse gap))
    with (Nat.iter gap elapse1 (on_engine (keyUp e) h1)).
  destruct (elapse_fields gap (on_engine (keyUp e) h1)) as [_ ->].
  cbn [on_engine engine]. rewrite keyUp_keysDown, K1, Hkd, (pressedKeys_bare e Hb).
  simpl. unfold indexOf. simpl. now rewrite String.eqb_refl.
Qed.

Lemma typed_keys props gap : forall es h,
  (gap < 2000)%nat ->
  Forall (fun e => bare e /\ ~ In (toLowerCase (tagName e)) (ignoreList props)) es ->
  keysDown (engine h) = [] ->
  let h' := run props h (flat_map (typed gap) es) in
  keysDown (engine h') = [] /\
  previousKeys (engine h') =
    (previousKeys (engine h) ++ map (fun e => toLowerCase (key e)) es)%list /\
  sequenceListeners (engine h') = sequenceListeners (engine h).
Proof.
  induction es as [|e r IH]; intros h Hgap Hes Hkd.
  - simpl. rewrite app_nil_r. auto.
  - inversion Hes as [|? ? [Hb Htag] Hr]; subst.
    cbn [flat_map]. cbv zeta. rewrite run_app.
    destruct (typed_key props gap e h Hgap Hb Htag Hkd) as (K & P & S).
    destruct (IH (run props h (typed gap e)) Hgap Hr K) as (K' & P' & S').
    rewrite K', P', S', P, S. cbn [map]. rewrite <- app_assoc. auto.
Qed.

(** X19. A sequence of any length fires. With the comma-joined key list in
    the sequence table, an empty buffer and no key down, typing the keys
    one after the other (each without modifiers, pressed and released, the
    next pressed less than 2000ms later) invokes the handler on the
    key-down of the last one. *)
Theorem X19_sequence_of_any_length props h0 es e ks m gap :
  Forall (fun e => bare e /\ ~ In (toLowerCase (tagName e)) (ignoreList props))
    (es ++ [e]) ->
  map (fun e => toLowerCase (key e)) (es ++ [e]) = map toLowerCase ks ->
  sequenceListeners (engine h0) !! toLowerCase (join "," ks) = Some m ->
  previousKeys (engine h0) = [] -> keysDown (engine h0) = [] ->
  (gap < 2000)%nat ->
  let h := run props h0 (flat_map (typed gap) es) in
  invocations Sequence (snd (keyDown props (clock h) e (engine h))) =
    [(toLowerCase (join "," ks), m)].
Proof.
  intros Hall Hkeys Hreg Hbuf Hkd Hgap h.
  apply Forall_app in Hall as [Hes He].
  inversion He as [|? ? [Hb Htag] _]; subst.
  destruct (typed_keys props gap es h0 Hgap Hes Hkd) as (K & P & S).
  fold h in K, P, S. rewrite Hbuf in P. simpl in P.
  assert (Hl : listening props e (engine h) = true)
    by (apply listening_iff; rewrite K; tauto).
  rewrite keyDown_effects by exact Hl.
  rewrite invocations_app, (pressedKeys_bare e Hb), P, S.
  assert (Ekey : join "," (map (fun e0 => toLowerCase (key e0)) es ++ [toLowerCase (key e)])
                 = toLowerCase (join "," ks)).
  { rewrite toLowerCase_join, <- Hkeys, map_app. reflexivity. }
  rewrite Ekey, Hreg.
  destruct (listeners (engine h) !! _); reflexivity.
Qed.

Lemma X19_sequence_of_any_length_witness :
  let ev k := {| key := k; ctrlKey := false; altKey := false; metaKey := false;
                 tagName := "DIV" |} in
  let h0 := run defaultProps boot
              [RegisterSequenceShortcut 9 ["Up"; "Up"; "Down"; "Down"] "Code" ""] in
  let h := run defaultProps h0 (flat_map (typed 150) [ev "Up"; ev "Up"; ev "Down"]) in
  invocations Sequence (snd (keyDown defaultProps (clock h) (ev "Down") (engine h))) =
    [(toLowerCase (join "," ["Up"; "Up"; "Down"; "Down"]), 9%nat)].
Proof.
  intros ev h0.
  apply (X19_sequence_of_any_length defaultProps h0
           [ev "Up"; ev "Up"; ev "Down"] (ev "Down")
           ["Up"; "Up"; "Down"; "Down"] 9%nat 150).
  - repeat constructor; simpl; intuition discriminate.
  - reflexivity.
  - reflexivity.
  - reflexivity.
  - reflexivity.
  - lia.
Defined.

(** ** Invariants of the registry *)

Lemma step_registry_cases props h a :
  sameRegistry (engine h) (engine (step props h a)) \/
  (exists m ks t d hd,
     engine (step props h a) = registerShortcut (clock h) m ks t d hd (engine h)) \/
  (exists m ks t d,
     engine (step props h a) = registerSequenceShortcut (clock h) m ks t d (engine h)) \/
  (exists ks s, engine (step props h a) = unregisterShortcut ks s (engine h)).
Proof.
  destruct a.
  - left. destruct (step_keyDown props h e) as (_ & -> & _). apply keyDown_registry.
  - left. unfold sameRegistry. simpl.
    destruct (keyUp_fields e (engine h)) as (_&_&_&A1&A2&A3&A4&A5). tauto.
  - left. apply elapse_fields.
  - right. left. simpl. eauto 10.
  - right. right. left. simpl. eauto 10.
  - right. right. right. simpl. eauto.
Qed.

Lemma durationsPaired_register now m ks t d hd st :
  durationsPaired st -> durationsPaired (registerShortcut now m ks t d hd st).
Proof.
  intros Hp. unfold registerShortcut. destruct (negb _); [|exact Hp].
  unfold durationsPaired, set_shortcuts. rewrite addListeners_record. simpl.
  intros k. destruct (holding hd); [|apply Hp].
  destruct (in_dec string_dec k (transformKeys ks)) as [Hin|Hn].
  - rewrite !insertAll_in by exact Hin. split; eauto.
  - rewrite !insertAll_notin by exact Hn. apply Hp.
Qed.

Lemma durationsPaired_unregister ks sequence_ st :
  durationsPaired st -> durationsPaired (unregisterShortcut ks sequence_ st).
Proof.
  intros Hp. unfold unregisterShortcut, durationsPaired, set_shortcuts.
  destruct sequence_; simpl; [exact Hp|].
  rewrite removeListeners_record. simpl. intros k.
  destruct (in_dec string_dec k (transformKeys ks)) as [Hin|Hn].
  - rewrite !deleteAll_in by exact Hin. split; intros [x Hx]; discriminate Hx.
  - rewrite !deleteAll_notin by exact Hn. apply Hp.
Qed.

Lemma step_durationsPaired props h a :
  durationsPaired (engine h) -> durationsPaired (engine (step props h a)).
Proof.
  intros Hp.
  destruct (step_registry_cases props h a)
    as [(_ & E2 & E3 & _)|[(m & ks & t & d & hd & ->)|[(m & ks & t & d & ->)|(ks & s & ->)]]].
  - unfold durationsPaired. rewrite E2, E3. exact Hp.
  - now apply durationsPaired_register.
  - unfold registerSequenceShortcut. destruct (negb _); exact Hp.
  - now apply durationsPaired_unregister.
Qed.

Lemma durationsPaired_initial : durationsPaired initialState.
Proof.
  intros k. simpl. rewrite !lookup_empty. split; intros [x Hx]; discriminate Hx.
Qed.

(** X20. In every reachable state the hold table and the duration table
    have the same keys: a combination has a hold handler exactly when it
    has a hold duration. *)
Theorem X20_durations_paired props h :
  reachable props h -> durationsPaired (engine h).
Proof.
  apply (reachable_invariant props durationsPaired).
  - apply durationsPaired_initial.
  - apply step_durationsPaired.
Qed.

Lemma X20_durations_paired_witness :
  let h := run defaultProps boot
             [RegisterShortcut 7 ["k"; "j"] "Hold" "" (Some 300%Z);
              UnregisterShortcut ["k"] false] in
  is_Some (holdDurations (engine h) !! "j").
Proof.
  intros h. apply (X20_durations_paired defaultProps h).
  - eexists. reflexivity.
  - vm_compute. eauto.
Defined.

Lemma chordKeysCanonical_register now m ks t d hd st :
  chordKeysCanonical st -> chordKeysCanonical (registerShortcut now m ks t d hd st).
Proof.
  intros H. unfold registerShortcut. destruct (negb _); [|exact H].
  unfold chordKeysCanonical. simpl. apply Forall_app. split; [exact H|].
  constructor; [|constructor]. intros _. simpl.
  unfold transformKeys. induction ks as [|raw r IH]; simpl; constructor;
    [apply transformCombo_canonical | exact IH].
Qed.

Lemma chordKeysCanonical_unregister ks sequence_ st :
  chordKeysCanonical st -> chordKeysCanonical (unregisterShortcut ks sequence_ st).
Proof.
  unfold chordKeysCanonical. rewrite unregisterShortcut_snapshot.
  generalize (shortcuts st). intros l H.
  induction H as [|s r Hs _ IH]; simpl; [constructor|].
  destruct (negb _); [constructor; assumption | exact IH].
Qed.

(** X21. In every reachable state, every chord shortcut of the snapshot
    (instantaneous or hold) stores canonical keys, whatever else has been
    registered: the raw keys of C8 are stored by sequence registration
    only. *)
Theorem X21_chord_keys_canonical props h :
  reachable props h -> chordKeysCanonical (engine h).
Proof.
  apply (reachable_invariant props chordKeysCanonical).
  - constructor.
  - intros h' a Hp.
    destruct (step_registry_cases props h' a)
      as [(_ & _ & _ & _ & E)|[(m & ks & t & d & hd & ->)|[(m & ks & t & d & ->)|(ks & s & ->)]]].
    + unfold chordKeysCanonical. rewrite E. exact Hp.
    + now apply chordKeysCanonical_register.
    + unfold registerSequenceShortcut. destruct (negb _); [|exact Hp].
      unfold chordKeysCanonical. simpl. apply Forall_app. split; [exact Hp|].
      constructor; [|constructor]. simpl. discriminate.
    + now apply chordKeysCanonical_unregister.
Qed.

Lemma X21_chord_keys_canonical_witness :
  chordKeysCanonical
    (engine (run defaultProps boot
               [RegisterSequenceShortcut 9 ["A"; "B"] "Go" "";
                RegisterShortcut 7 ["Cmd+K"] "Open" "" None])).
Proof.
  apply (X21_chord_keys_canonical defaultProps). eexists. reflexivity.
Defined.

(** ** Hold Timer: what a key-down starts *)

(** X22. A key-down none of whose key tokens has a hold duration starts an
    interval that never invokes anything: whatever hold was pending is
    replaced, and however long the keys stay down no handler is invoked
    and nothing is thrown (also when the hold table has a handler for the
    full combination). *)
Theorem X22_keyDown_without_duration props h e :
  listening props e (engine h) = true ->
  (forall k, In k (pressedKeys e) -> holdDurations (engine h) !! k = None) ->
  let h1 := step props h (KeyDown e) in
  forall n, trace (step props h1 (Elapse n)) = trace h1.
Proof.
  intros Hl Hnone h1 n.
  destruct (step_keyDown props h e) as (_ & E1 & _). fold h1 in E1.
  destruct (keyDown_state props (clock h) e (engine h) Hl)
    as (_ & _ & _ & Hiv & _ & _ & _ & Hd & _).
  cbv zeta in Hiv, Hd. rewrite <- E1 in Hiv, Hd.
  apply (unmeasured_elapse n h1).
  eexists. split; [exact Hiv|]. cbn [heldKeys]. intros k Hk. rewrite Hd. now apply Hnone.
Qed.

Lemma X22_keyDown_without_duration_witness :
  let e := {| key := "k"; ctrlKey := false; altKey := true; metaKey := false;
              tagName := "DIV" |} in
  let h := run defaultProps boot [RegisterShortcut 7 ["alt+k"] "Hold" "" (Some 300%Z)] in
  trace (step defaultProps (step defaultProps h (KeyDown e)) (Elapse 3000)) =
  trace (step defaultProps h (KeyDown e)).
Proof.
  intros e h.
  apply (X22_keyDown_without_duration defaultProps h e eq_refl).
  intros k [<-|[<-|[]]]; reflexivity.
Defined.

Lemma typeErrors_app fx1 fx2 :
  typeErrors (fx1 ++ fx2) = (typeErrors fx1 ++ typeErrors fx2)%list.
Proof. apply flat_map_app. Qed.

Lemma keyDown_no_typeError props now e st :
  typeErrors (snd (keyDown props now e st)) = [].
Proof.
  destruct (listening props e st) eqn:Hl.
  - rewrite keyDown_effects by exact Hl. rewrite typeErrors_app.
    destruct (listeners st !! _); destruct (sequenceListeners st !! _); reflexivity.
  - now rewrite keyDown_ignored.
Qed.

(** X23. In every reachable state, a key-down without modifiers never
    leads to a call of an absent hold handler: however long the key is
    held, nothing is thrown. (The throw of C10 needs a modifier flag on
    the event.) *)
Theorem X23_bare_keys_never_throw props h0 e :
  reachable props h0 -> bare e -> listening props e (engine h0) = true ->
  forall n,
    typeErrors (trace (step props (step props h0 (KeyDown e)) (Elapse n))) =
    typeErrors (trace h0).
Proof.
  intros Hreach Hb Hl n.
  pose proof (reachable_invariant props durationsPaired durationsPaired_initial
                (step_durationsPaired props) h0 Hreach) as Hp.
  destruct (step_keyDown props h0 e) as (_ & _ & Htr1).
  assert (H1 : typeErrors (trace (step props h0 (KeyDown e))) = typeErrors (trace h0))
    by (rewrite Htr1, typeErrors_app, keyDown_no_typeError; apply app_nil_r).
  destruct (holdDurations (engine h0) !! toLowerCase (key e)) as [d|] eqn:Hd.
  - destruct (proj1 (Hp (toLowerCase (key e)))) as [m Hm]; [rewrite Hd; eauto|].
    set (c0 := match holdInterval (engine h0) with
               | Some _ => 0%Z | None => holdTimer (engine h0) end).
    pose proof (Z.div_mod (d - c0 + 99) 100 ltac:(lia)) as Hdm.
    pose proof (Z.mod_pos_bound (d - c0 + 99) 100 ltac:(lia)) as Hmod.
    set (q := ((d - c0 + 99) / 100)%Z) in *.
    assert (Hge : (d <= c0 + 100 * Z.of_nat (Z.to_nat q))%Z) by lia.
    assert (Hmin : forall j, (j < Z.to_nat q)%nat -> (c0 + 100 * Z.of_nat j < d)%Z)
      by (intros j Hj; lia).
    destruct (hold_fires_at props h0 e d m (Z.to_nat q) n Hb Hl Hd Hm Hge Hmin)
      as [Htr _].
    change (step props (step props h0 (KeyDown e)) (Elapse n))
      with (Nat.iter n elapse1 (step props h0 (KeyDown e))).
    rewrite Htr, typeErrors_app, H1.
    destruct (n <? 100 * (Z.to_nat q + 1))%nat; simpl; apply app_nil_r.
  - assert (Hq : trace (step props (step props h0 (KeyDown e)) (Elapse n)) =
                 trace (step props h0 (KeyDown e))).
    { destruct (keyDown_state props (clock h0) e (engine h0) Hl)
        as (_ & _ & _ & Hiv & _ & _ & _ & Hdur & _).
      destruct (step_keyDown props h0 e) as (_ & E1 & _).
      cbv zeta in Hiv, Hdur. rewrite <- E1 in Hiv, Hdur.
      apply (unmeasured_elapse n (step props h0 (KeyDown e))).
      eexists. split; [exact Hiv|]. cbn [heldKeys]. rewrite (pressedKeys_bare e Hb).
      intros k [<-|[]]. now rewrite Hdur. }
    now rewrite Hq.
Qed.

Lemma X23_bare_keys_never_throw_witness :
  let e := {| key := "k"; ctrlKey := false; altKey := false; metaKey := false;
              tagName := "DIV" |} in
  let h0 := run defaultProps boot [RegisterShortcut 7 ["k"] "Hold" "" (Some 300%Z)] in
  typeErrors (trace (step defaultProps (step defaultProps h0 (KeyDown e)) (Elapse 900))) =
  typeErrors (trace h0).
Proof.
  intros e h0.
  apply (X23_bare_keys_never_throw defaultProps h0 e).
  - eexists. reflexivity.
  - repeat split.
  - reflexivity.
Defined.

(** ** Shortcut Registry: unregistering twice *)

Lemma deleteAll_twice {V} (ks : list string) (o : gmap string V) :
  deleteAll ks (deleteAll ks o) = deleteAll ks o.
Proof.
  apply deleteAll_absent. intros k Hk. now apply deleteAll_in.
Qed.

Lemma filter_twice {A} (f : A -> bool) l :
  List.filter f (List.filter f l) = List.filter f l.
Proof.
  apply filter_all. intros x Hx. now apply filter_In in Hx.
Qed.

(** X24. Unregistering is idempotent: a second call of
    [unregisterShortcut] with the same keys and flag changes nothing. *)
Theorem X24_unregister_idempotent ks sequence_ st :
  unregisterShortcut ks sequence_ (unregisterShortcut ks sequence_ st) =
  unregisterShortcut ks sequence_ st.
Proof.
  unfold unregisterShortcut, set_shortcuts. destruct sequence_; simpl.
  - now rewrite delete_delete_eq, filter_twice.
  - rewrite !removeListeners_record. simpl.
    now rewrite !deleteAll_twice, filter_twice.
Qed.
